(** * Verification of the slackbot conversational pipeline

    Shallow embedding of [utils/util.py] (text sanitizing, think/answer
    extraction, chunking, formatting, context assembly) and of the two event
    handlers of [bot.py], followed by the theorems that settle the
    properties stated for them.

    Conventions.
    - A Python [str] is a list of code points ([N]); literals are written
      with [lit].
    - Python integers are [Z]; indices returned by [str.find]/[str.rfind]
      are [Z] with [-1] for "not found", as in the source.
    - The [while] loop of [chunk_text] is iterated with fuel; [None] stands
      for a loop that has not finished within the fuel.
    - The database session is explicit state; a failing database operation
      is an input of the handlers (a fault schedule). *)

From Stdlib Require Import Ascii String.
From Stdlib Require Import List ZArith NArith Bool Lia.
From Stdlib Require Import Permutation Sorted.
From Stdlib Require Import Floats.SpecFloat.
Import ListNotations.

Local Open Scope Z_scope.

(* ================================================================= *)
(** * Python strings *)

Module PyStr.

(** A character is a Unicode code point. *)
Definition char := N.
Definition str := list char.

Definition lit (s : string) : str := map N_of_ascii (list_ascii_of_string s).

Definition len (s : str) : Z := Z.of_nat (length s).

(** [bool(s)] for a string: non-empty. *)
Definition truthy (s : str) : bool :=
  match s with [] => false | _ :: _ => true end.

Definition char_eqb (a b : char) : bool := N.eqb a b.

Fixpoint str_eqb (a b : str) : bool :=
  match a, b with
  | [], [] => true
  | x :: a', y :: b' => char_eqb x y && str_eqb a' b'
  | _, _ => false
  end.

(** Code points for which [str.isspace] holds, the set removed by
    [str.strip()] without argument. *)
Definition whitespace_codes : list N :=
  [9; 10; 11; 12; 13; 28; 29; 30; 31; 32; 133; 160; 5760;
   8192; 8193; 8194; 8195; 8196; 8197; 8198; 8199; 8200; 8201; 8202;
   8232; 8233; 8239; 8287; 12288]%N.

Definition is_space (c : char) : bool := existsb (N.eqb c) whitespace_codes.

Fixpoint lstrip (s : str) : str :=
  match s with
  | [] => []
  | c :: s' => if is_space c then lstrip s' else s
  end.

Definition rstrip (s : str) : str := rev (lstrip (rev s)).

(** [s.strip()] *)
Definition strip (s : str) : str := rstrip (lstrip s).

(** Python slice bounds: a negative bound counts from the end, and both
    kinds are clamped to [0 .. len]. *)
Definition clamp (n : Z) (k : Z) : nat :=
  Z.to_nat (if k <? 0 then Z.max 0 (n + k) else Z.min k n).

(** [s[:k]] *)
Definition slice_to (s : str) (k : Z) : str := firstn (clamp (len s) k) s.

(** [s[k:]] *)
Definition slice_from (s : str) (k : Z) : str := skipn (clamp (len s) k) s.

Fixpoint starts_with (needle s : str) : bool :=
  match needle, s with
  | [], _ => true
  | x :: n', y :: s' => char_eqb x y && starts_with n' s'
  | _ :: _, [] => false
  end.

(** Lowest offset at which [needle] occurs in [s]. *)
Fixpoint find_first (needle s : str) : option nat :=
  if starts_with needle s then Some 0%nat
  else match s with
       | [] => None
       | _ :: s' => option_map S (find_first needle s')
       end.

(** Highest offset at which [needle] occurs in [s]. *)
Fixpoint find_last (needle s : str) : option nat :=
  match s with
  | [] => if starts_with needle [] then Some 0%nat else None
  | _ :: s' =>
      match find_last needle s' with
      | Some i => Some (S i)
      | None => if starts_with needle s then Some 0%nat else None
      end
  end.

Definition index_or_minus1 (o : option nat) : Z :=
  match o with Some i => Z.of_nat i | None => -1 end.

(** [s.rfind(needle)] *)
Definition rfind (s needle : str) : Z := index_or_minus1 (find_last needle s).

(** [s.find(needle, start)] *)
Definition find_from (s needle : str) (start : Z) : Z :=
  let k := if start <? 0 then Z.max 0 (len s + start) else start in
  if len s <? k then -1
  else match find_first needle (skipn (Z.to_nat k) s) with
       | Some i => k + Z.of_nat i
       | None => -1
       end.

(** [sep.join(parts)] *)
Fixpoint join (sep : str) (parts : list str) : str :=
  match parts with
  | [] => []
  | [p] => p
  | p :: rest => p ++ sep ++ join sep rest
  end.

(** [s.split(c)] for a one-character separator. *)
Fixpoint split_on (c : char) (s : str) : list str :=
  match s with
  | [] => [[]]
  | x :: s' =>
      if char_eqb x c then [] :: split_on c s'
      else match split_on c s' with
           | [] => [[x]]
           | l :: ls => (x :: l) :: ls
           end
  end.

Definition newline : char := 10%N.
Definition dquote : char := 34%N.

End PyStr.

Import PyStr.

(* ================================================================= *)
(** * The fragment of Python's [re] used by the source *)

Module Re.

(** The three patterns of [util.py] are sequences of literal characters,
    one greedy [X+] over a character set and one capturing lazy group
    [(X*?)], where [X] matches a single character. *)
Inductive node :=
| Lit (c : char)                    (* a literal character *)
| Plus (set : char -> bool)         (* [set]+ , greedy *)
| LazyGroup (set : char -> bool).   (* ([set]*?) , lazy, capturing group 1 *)

Definition regex := list node.

(** Result of a match attempt at a fixed position: the text captured by
    group 1 (empty when the pattern has no group) and the unconsumed rest. *)
Definition matched := option (str * str).

(** Lazy repetition: the continuation is tried first, one more character
    is consumed only when it fails. *)
Fixpoint lazy_star (set : char -> bool) (k : str -> matched) (s : str) : matched :=
  match k s with
  | Some (_, rest) => Some ([], rest)
  | None =>
      match s with
      | [] => None
      | x :: s' =>
          if set x
          then match lazy_star set k s' with
               | Some (g, rest) => Some (x :: g, rest)
               | None => None
               end
          else None
      end
  end.

(** Greedy repetition: as many characters as possible are consumed first,
    and given back one at a time while the continuation fails. *)
Fixpoint greedy_star (set : char -> bool) (k : str -> matched) (s : str) : matched :=
  match s with
  | [] => k s
  | x :: s' =>
      if set x
      then match greedy_star set k s' with
           | Some r => Some r
           | None => k s
           end
      else k s
  end.

Definition greedy_plus (set : char -> bool) (k : str -> matched) (s : str) : matched :=
  match s with
  | [] => None
  | x :: s' => if set x then greedy_star set k s' else None
  end.

(** Backtracking match of [r] anchored at the start of [s]. *)
Fixpoint match_here (r : regex) : str -> matched :=
  match r with
  | [] => fun s => Some ([], s)
  | Lit c :: r' =>
      fun s =>
        match s with
        | [] => None
        | x :: s' => if char_eqb x c then match_here r' s' else None
        end
  | Plus set :: r' => greedy_plus set (match_here r')
  | LazyGroup set :: r' => lazy_star set (match_here r')
  end.

(** [re.search]: the leftmost position at which the pattern matches.
    Returns the text before the match, group 1, and the text after it. *)
Fixpoint search (r : regex) (s : str) : option (str * str * str) :=
  match match_here r s with
  | Some (g, rest) => Some ([], g, rest)
  | None =>
      match s with
      | [] => None
      | x :: s' =>
          match search r s' with
          | Some (before, g, rest) => Some (x :: before, g, rest)
          | None => None
          end
      end
  end.

(** [re.sub(r, repl, s)]: every leftmost non-overlapping match is replaced
    by [repl] applied to its group 1.  Each pattern of the source starts
    with a literal, so a match is never empty and the scan resumes right
    after it; [length s] rounds are enough. *)
Fixpoint sub_rounds (n : nat) (r : regex) (repl : str -> str) (s : str) : str :=
  match n with
  | O => s
  | S n' =>
      match search r s with
      | None => s
      | Some (before, g, rest) => before ++ repl g ++ sub_rounds n' r repl rest
      end
  end.

Definition sub (r : regex) (repl : str -> str) (s : str) : str :=
  sub_rounds (length s) r repl s.

(** [re.finditer(r, s)], giving group 1 of every match in order. *)
Fixpoint finditer_rounds (n : nat) (r : regex) (s : str) : list str :=
  match n with
  | O => []
  | S n' =>
      match search r s with
      | None => []
      | Some (_, g, rest) => g :: finditer_rounds n' r rest
      end
  end.

Definition finditer (r : regex) (s : str) : list str :=
  finditer_rounds (length s) r s.

Definition lits (s : string) : regex := map Lit (lit s).

(** [.] with [re.DOTALL], and without it. *)
Definition any_char : char -> bool := fun _ => true.
Definition not_newline : char -> bool := fun c => negb (char_eqb c newline).

(** The set [[A-Z0-9]]. *)
Definition upper_or_digit (c : char) : bool :=
  ((65 <=? c) && (c <=? 90) || (48 <=? c) && (c <=? 57))%N.

End Re.

(* ================================================================= *)
(** * The float comparison [index > max_length * 0.7] *)

Module Float.

(** IEEE 754 binary64. *)
Definition prec : Z := 53.
Definition emax : Z := 1024.

(** The double nearest to [0.7], the value of the literal in the source. *)
Definition seven_tenths : spec_float := S754_finite false 6305039478318694 (-53).

(** [float(n)]: conversion of an integer, rounding to nearest even.
    CPython raises [OverflowError] when [n] is beyond the largest double;
    [chunk_text] converts [max_length] only while [len(text) > max_length],
    and no string has that many characters, so the case is left to the
    infinity that the rounding returns. *)
Definition of_int (n : Z) : spec_float := binary_normalize prec emax n 0 false.

(** [n * 0.7] for an integer [n]. *)
Definition times_seven_tenths (n : Z) : spec_float :=
  SFmul prec emax (of_int n) seven_tenths.

(** [i > x] for an integer [i] and a float [x]; Python compares the two
    exactly, without rounding [i]. *)
Definition int_gt (i : Z) (x : spec_float) : bool :=
  match x with
  | S754_zero _ => 0 <? i
  | S754_infinity negative => negative
  | S754_nan => false
  | S754_finite negative m e =>
      let v := if negative then Z.neg m else Z.pos m in
      if 0 <=? e then v * 2 ^ e <? i else v <? i * 2 ^ (- e)
  end.

End Float.

(* ================================================================= *)
(** * db/models.py and the database session *)

Module Db.

(** A row of the table [conversations]. *)
Record Conversation := {
  id : Z;
  user_id : str;
  channel_id : str;
  message_id : str;
  incoming_message : str;
  outgoing_message : str;
  model_name : str;
  created_at : Z;
  updated_at : option Z
}.

(** A committed write, kept as a ghost journal of the session. *)
Inductive write :=
| Inserted (message_id : str)
| Updated (message_id : str).

(** The session [db]: the committed rows in insertion order, the next
    primary key and the journal of committed writes. *)
Record Session := {
  table : list Conversation;
  next_id : Z;
  journal : list write
}.

(** Whether a database operation goes through or raises. *)
Inductive outcome := Succeeds | Raises.

Definition has_message_id (ts : str) (c : Conversation) : bool :=
  str_eqb (message_id c) ts.

(** [db.add(conversation); db.commit()].  The commit raises when the
    database fails or when [message_id] is already taken (the column is
    unique); the caller then rolls back, which leaves the rows as they
    were.  An insert turned down for its [message_id] has drawn its [id]
    from the sequence all the same, and the sequence is not rolled back.
    Returns the session and whether the commit went through. *)
Definition add_commit (db : Session) (o : outcome) (now : Z)
    (user channel ts incoming outgoing model : str) : Session * bool :=
  match o with
  | Raises => (db, false)
  | Succeeds =>
      if existsb (has_message_id ts) (table db)
      then ({| table := table db; next_id := next_id db + 1; journal := journal db |},
            false)
      else
        ({| table := table db ++
                     [{| id := next_id db; user_id := user; channel_id := channel;
                         message_id := ts; incoming_message := incoming;
                         outgoing_message := outgoing; model_name := model;
                         created_at := now; updated_at := None |}];
            next_id := next_id db + 1;
            journal := journal db ++ [Inserted ts] |}, true)
  end.

(** The row after [conversation.outgoing_message = text] and the commit.
    A text equal to the stored one is no change: no UPDATE is sent and
    [updated_at] (set by [onupdate]) stays as it is. *)
Definition with_outgoing (text : str) (now : Z) (c : Conversation) : Conversation :=
  if str_eqb (outgoing_message c) text then c
  else
    {| id := id c; user_id := user_id c; channel_id := channel_id c;
       message_id := message_id c; incoming_message := incoming_message c;
       outgoing_message := text; model_name := model_name c;
       created_at := created_at c; updated_at := Some now |}.

(** The rows after [conversation.outgoing_message = text; db.commit()] for
    [conversation = db.query(Conversation).filter_by(message_id=ts).first()]. *)
Fixpoint set_first_outgoing (ts text : str) (now : Z) (rows : list Conversation)
  : list Conversation :=
  match rows with
  | [] => []
  | c :: rest =>
      if has_message_id ts c then with_outgoing text now c :: rest
      else c :: set_first_outgoing ts text now rest
  end.

(** Insertion of a row in a list ordered by [created_at], newest first.
    SQL leaves the order of rows with the same [created_at] open; here they
    keep the order in which they were inserted. *)
Fixpoint insert_desc (c : Conversation) (sorted : list Conversation) : list Conversation :=
  match sorted with
  | [] => [c]
  | d :: rest =>
      if created_at d <=? created_at c then c :: sorted
      else d :: insert_desc c rest
  end.

(** [order_by(desc(Conversation.created_at))] *)
Definition order_by_created_desc (rows : list Conversation) : list Conversation :=
  fold_right insert_desc [] rows.

(** [db.query(Conversation).filter(channel_id == ..., model_name == ...)
       .order_by(desc(created_at)).limit(limit).all()] *)
Definition recent (db : Session) (channel model : str) (limit : nat) : list Conversation :=
  firstn limit
    (order_by_created_desc
       (filter (fun c => str_eqb (channel_id c) channel && str_eqb (model_name c) model)
               (table db))).

End Db.

(* ================================================================= *)
(** * utils/util.py *)

Module Util.

Import Db.

(** [SLACK_USER_MENTION_PATTERN = r'<@[A-Z0-9]+>'] *)
Definition SLACK_USER_MENTION_PATTERN : Re.regex :=
  Re.lits "<@" ++ [Re.Plus Re.upper_or_digit] ++ Re.lits ">".

(** [THINK_TAG_PATTERN = r'<think>(.*?)</think>'], used with [re.DOTALL]. *)
Definition THINK_TAG_PATTERN : Re.regex :=
  Re.lits "<think>" ++ [Re.LazyGroup Re.any_char] ++ Re.lits "</think>".

(** [BOLD_TEXT_PATTERN = r'\*\*(.*?)\*\*'] *)
Definition BOLD_TEXT_PATTERN : Re.regex :=
  Re.lits "**" ++ [Re.LazyGroup Re.not_newline] ++ Re.lits "**".

(** [clean_message], on a [str] argument. *)
Definition clean_message (text : str) : str :=
  let cleaned_text := Re.sub SLACK_USER_MENTION_PATTERN (fun _ => []) text in
  let cleaned_text := strip cleaned_text in
  cleaned_text.

(** [extract_think_and_answer], on a [str] argument.  The first component
    is [None] for Python's [None]. *)
Definition extract_think_and_answer (response_text : str) : option (list str) * str :=
  let think_matches := Re.finditer THINK_TAG_PATTERN response_text in
  let thinking_parts := map strip think_matches in
  let think_end := rfind response_text (lit "</think>") in
  if think_end =? -1 then (None, strip response_text)
  else
    let answer := strip (slice_from response_text (think_end + 8)) in
    (Some thinking_parts, answer).

(** The split point chosen by one round of the loop of [chunk_text], for a
    [text] longer than [max_length]. *)
Definition chunk_end_of (text : str) (max_length : Z) : Z :=
  let chunk_end := max_length in
  let last_period := rfind (slice_to text max_length) (lit ".") in
  let last_newline := rfind (slice_to text max_length) [newline] in
  let last_space := rfind (slice_to text max_length) (lit " ") in
  let chunk_end :=
    if negb (last_period =? -1)
       && Float.int_gt last_period (Float.times_seven_tenths max_length)
    then last_period + 1
    else if negb (last_newline =? -1)
            && Float.int_gt last_newline (Float.times_seven_tenths max_length)
    then last_newline + 1
    else if negb (last_space =? -1)
    then last_space + 1
    else chunk_end in
  if (chunk_end =? max_length) && (max_length <? len text)
  then
    let next_space := find_from text (lit " ") max_length in
    if negb (next_space =? -1) && (next_space - max_length <? 100)
    then next_space + 1
    else chunk_end
  else chunk_end.

(** The [while text:] loop of [chunk_text]; one unit of fuel per round. *)
Fixpoint chunk_loop (fuel : nat) (text : str) (max_length : Z) (chunks : list str)
  : option (list str) :=
  match text with
  | [] => Some chunks
  | _ :: _ =>
      match fuel with
      | O => None
      | S fuel' =>
          if len text <=? max_length then Some (chunks ++ [text])
          else
            let chunk_end := chunk_end_of text max_length in
            let current_chunk := strip (slice_to text chunk_end) in
            let chunks :=
              if truthy current_chunk then chunks ++ [current_chunk] else chunks in
            chunk_loop fuel' (strip (slice_from text chunk_end)) max_length chunks
      end
  end.

(** [chunk_text(text, max_length)].  The fuel covers every run in which a
    round shortens the text, which is the case for [max_length >= 1]. *)
Definition chunk_text (text : str) (max_length : Z) : option (list str) :=
  chunk_loop (length text) text max_length [].

Definition default_max_length : Z := 2900.

(** A Slack block: a section with a [mrkdwn] text, or a divider. *)
Inductive block :=
| SectionMrkdwn (text : str)
| Divider.

(** What [format_slack_response] returns, and what [say] is given:
    [{"blocks": ...}] or [{"text": ...}]. *)
Inductive payload :=
| Blocks (blocks : list block)
| PlainText (text : str).

Definition bind {A B : Type} (o : option A) (k : A -> option B) : option B :=
  match o with Some a => k a | None => None end.

(** The blocks appended by [for part in thinking_parts: for chunk in
    chunk_text(part): ...]. *)
Fixpoint thinking_part_blocks (thinking_parts : list str) : option (list block) :=
  match thinking_parts with
  | [] => Some []
  | part :: rest =>
      bind (chunk_text part default_max_length) (fun chunks =>
      bind (thinking_part_blocks rest) (fun blocks =>
      Some (map (fun chunk => SectionMrkdwn (lit "```" ++ chunk ++ lit "```")) chunks
            ++ blocks)))
  end.

(** The blocks appended under [if thinking_parts:]; [None] and the empty
    list are both false. *)
Definition thinking_section (thinking_parts : option (list str)) : option (list block) :=
  match thinking_parts with
  | None | Some [] => Some []
  | Some parts =>
      bind (thinking_part_blocks parts) (fun blocks =>
      Some ([SectionMrkdwn (lit "*Thinking Process* :arrow_down:")]
            ++ blocks ++ [Divider]))
  end.

(** [format_slack_response], on a [str] argument. *)
Definition format_slack_response (response_text : str) : option payload :=
  let '(thinking_parts, answer) := extract_think_and_answer response_text in
  bind (thinking_section thinking_parts) (fun blocks =>
  let formatted_answer :=
    Re.sub BOLD_TEXT_PATTERN (fun g => lit "*" ++ g ++ lit "*") answer in
  let blocks := blocks ++ [SectionMrkdwn (lit "*Answer:*")] in
  bind (chunk_text formatted_answer default_max_length) (fun answer_chunks =>
  Some (Blocks (blocks ++ map SectionMrkdwn answer_chunks)))).

(** [get_recent_conversations(db, channel_id, model_id, limit)].  The
    outcome [o] tells whether the query goes through; when it raises, and
    when the database rejects a negative [LIMIT], the [except] branch
    returns the empty string. *)
Definition get_recent_conversations (db : Session) (o : outcome)
    (channel_id model_id : str) (limit : Z) : str :=
  match o with
  | Raises => []
  | Succeeds =>
      if limit <? 0 then []
      else
        let conversations := recent db channel_id model_id (Z.to_nat limit) in
        let context_parts :=
          flat_map
            (fun conv =>
               let '(_, answer) := extract_think_and_answer (outgoing_message conv) in
               [lit "user: " ++ [dquote] ++ incoming_message conv ++ [dquote];
                lit "assistant: " ++ [dquote] ++ answer ++ [dquote]])
            (rev conversations) in
        join [newline] context_parts
  end.

Definition default_limit : Z := 5.

End Util.

(* ================================================================= *)
(** * bot.py *)

Module Bot.

Import Db Util.

(** The fields the handlers read from an event. *)
Record Event := {
  ev_text : str;
  ev_user : str;
  ev_channel : str;
  ev_ts : str
}.

(** Result of [requests.post] followed by [raise_for_status] and [json]:
    the [response] field, a timeout, or another [RequestException]. *)
Inductive http_result :=
| Response (response_text : str)
| Timeout
| RequestException.

(** What the environment decides during one handler run: the outcome and
    the clock of each database operation, and the answer of the endpoint to
    a model name and a prompt. *)
Record Env := {
  insert_outcome : outcome;
  insert_time : Z;
  select_outcome : outcome;
  update_outcome : outcome;
  update_time : Z;
  post : str -> str -> http_result
}.

(** The prompt sent to the endpoint. *)
Definition build_prompt (context cleaned_text : str) : str :=
  lit "You are an AI Coach, world-class semiconductor value chain expert with extensive and in-depth knowledge of semiconductor manufacturing. You need to help your team of users to become expert problem-solvers in this field by providing answers and reasoning to the questions which the user asks in the most accurate form by demonstrating your technical skills and depth. Be conversational, friendly and professional in your response."
  ++ [newline; newline]
  ++ lit "                    Here is some context to the conversation, based on the previous conversations:"
  ++ [newline]
  ++ lit "                    " ++ context
  ++ [newline; newline]
  ++ lit "                    Please answer the below question now"
  ++ [newline; newline]
  ++ lit "                    ### Question: " ++ cleaned_text.

(** [handle_message]: the session afterwards and the payloads given to
    [say], in order. *)
Definition handle_message (db : Session) (env : Env) (event : Event)
  : Session * list payload :=
  let text := ev_text event in
  if truthy text then
    let cleaned_text := clean_message text in
    let '(db, _) :=
      add_commit db (insert_outcome env) (insert_time env)
        (ev_user event) (ev_channel event) (ev_ts event)
        cleaned_text cleaned_text (lit "echo") in
    (db, [PlainText cleaned_text])
  else (db, []).

(** The [try] block that stores the response: the row is looked up by
    [message_id], changed and committed; a failure is rolled back.  The
    commit sends an UPDATE only when the text differs from the stored
    one. *)
Definition store_response (db : Session) (o : outcome) (now : Z)
    (ts response_text : str) : Session :=
  match o with
  | Raises => db
  | Succeeds =>
      match find (has_message_id ts) (table db) with
      | Some conversation =>
          {| table := set_first_outgoing ts response_text now (table db);
             next_id := next_id db;
             journal :=
               if str_eqb (outgoing_message conversation) response_text
               then journal db
               else journal db ++ [Updated ts] |}
      | None => db
      end
  end.

(** [handle_mention], for the configured [MODEL_NAME]. *)
Definition handle_mention (MODEL_NAME : str) (db : Session) (env : Env) (event : Event)
  : option (Session * list payload) :=
  let text := ev_text event in
  if truthy text then
    let cleaned_text := clean_message text in
    let '(db, _) :=
      add_commit db (insert_outcome env) (insert_time env)
        (ev_user event) (ev_channel event) (ev_ts event)
        cleaned_text [] MODEL_NAME in
    let context :=
      get_recent_conversations db (select_outcome env) (ev_channel event)
        MODEL_NAME default_limit in
    let prompt := build_prompt context cleaned_text in
    match post env MODEL_NAME prompt with
    | Response response_text =>
        let db :=
          store_response db (update_outcome env) (update_time env)
            (ev_ts event) response_text in
        bind (format_slack_response response_text) (fun formatted_response =>
        Some (db, [formatted_response]))
    | Timeout =>
        Some (db, [PlainText
          (lit "Sorry, the request took too long to process. Please try again.")])
    | RequestException =>
        Some (db, [PlainText
          (lit "Sorry, I'm having trouble connecting to the chat service right now.")])
    end
  else Some (db, []).

End Bot.

(* ================================================================= *)
(** * Notions used to state the properties *)

Module Spec.

Import Db Util Bot.

(** [needle] occurs in [s] at offset [i]. *)
Definition occurs_at (needle s : str) (i : nat) : Prop :=
  exists pre post, s = pre ++ needle ++ post /\ length pre = i.

Definition occurs (needle s : str) : Prop := exists i, occurs_at needle s i.

(** [i] is the offset of the last occurrence of [needle] in [s]. *)
Definition last_occurrence (needle s : str) (i : nat) : Prop :=
  occurs_at needle s i /\ forall j, occurs_at needle s j -> (j <= i)%nat.

Definition all_space (s : str) : bool := forallb is_space s.

Definition start_tag : str := lit "<think>".
Definition end_tag : str := lit "</think>".

(** The think spans as the specification words them: the next start tag,
    then the next end tag after it, the trimmed text in between, and on
    from behind that end tag. *)
Fixpoint think_spans_rounds (n : nat) (s : str) : list str :=
  match n with
  | O => []
  | S n' =>
      match find_first start_tag s with
      | None => []
      | Some i =>
          let inner := skipn (i + 7) s in
          match find_first end_tag inner with
          | None => []
          | Some j => strip (firstn j inner) :: think_spans_rounds n' (skipn (j + 8) inner)
          end
      end
  end.

Definition think_spans (s : str) : list str := think_spans_rounds (length s) s.

(** [s] holds a complete [<think>...</think>] span. *)
Definition has_think_span (s : str) : Prop :=
  exists pre inner post, s = pre ++ start_tag ++ inner ++ end_tag ++ post.

(** A mention token: [<@], one or more characters of [[A-Z0-9]], [>]. *)
Definition is_mention (m : str) : Prop :=
  exists body, m = lit "<@" ++ body ++ lit ">"
               /\ body <> [] /\ forallb Re.upper_or_digit body = true.

Definition has_mention (s : str) : Prop :=
  exists pre m post, s = pre ++ m ++ post /\ is_mention m.

(** A mention token lies in [s] at offset [j]. *)
Definition mention_at (s : str) (j : nat) : Prop :=
  exists pre m post, s = pre ++ m ++ post /\ is_mention m /\ length pre = j.

(** One left-to-right pass over [s] that deletes mention tokens: the
    leftmost token is deleted and the pass goes on behind it, until the text
    that is left holds none. *)
Inductive one_pass : str -> str -> Prop :=
| pass_end (s : str) :
    ~ has_mention s -> one_pass s s
| pass_token (pre m post out : str) :
    is_mention m ->
    (forall j, mention_at (pre ++ m ++ post) j -> (length pre <= j)%nat) ->
    one_pass post out ->
    one_pass (pre ++ m ++ post) (pre ++ out).

(** The same, decided by trying the pattern at every offset. *)
Fixpoint has_mentionb (s : str) : bool :=
  match Re.match_here SLACK_USER_MENTION_PATTERN s with
  | Some _ => true
  | None => match s with [] => false | _ :: s' => has_mentionb s' end
  end.

(** [text] is [chunks] with a run of whitespace before, between and after
    them: what is left of a text whose pieces were trimmed. *)
Inductive woven : str -> list str -> Prop :=
| woven_end (w : str) :
    all_space w = true -> woven w []
| woven_chunk (w chunk rest : str) (chunks : list str) :
    all_space w = true -> woven rest chunks ->
    woven (w ++ chunk ++ rest) (chunk :: chunks).

Definition visible (s : str) : str := filter (fun c => negb (is_space c)) s.

(** One round of the loop of [chunk_text] on a text longer than
    [max_length]: the chunk it appends, if any, and the text it goes on
    with. *)
Definition round_chunk (text : str) (max_length : Z) : list str :=
  let current_chunk := strip (slice_to text (chunk_end_of text max_length)) in
  if truthy current_chunk then [current_chunk] else [].

Definition round_rest (text : str) (max_length : Z) : str :=
  strip (slice_from text (chunk_end_of text max_length)).

(** A text whose first 2900 characters hold a space and end in a period
    that is followed by a word. *)
Definition period_at_window_end : str :=
  lit "x " ++ repeat 97%N 2897 ++ lit ".bb cc".

(** The two lines [get_recent_conversations] writes for a row. *)
Definition user_line (c : Conversation) : str :=
  lit "user: " ++ [dquote] ++ incoming_message c ++ [dquote].

Definition assistant_line (c : Conversation) : str :=
  lit "assistant: " ++ [dquote]
  ++ snd (extract_think_and_answer (outgoing_message c)) ++ [dquote].

Definition matches (channel model : str) (c : Conversation) : bool :=
  str_eqb (channel_id c) channel && str_eqb (model_name c) model.

Definition no_newline (s : str) : Prop := ~ In newline s.

(** The prompt [handle_mention] sends for an event. *)
Definition mention_prompt (MODEL_NAME : str) (db : Session) (env : Env) (event : Event) : str :=
  let cleaned_text := clean_message (ev_text event) in
  let db1 :=
    fst (add_commit db (insert_outcome env) (insert_time env)
           (ev_user event) (ev_channel event) (ev_ts event)
           cleaned_text [] MODEL_NAME) in
  build_prompt
    (get_recent_conversations db1 (select_outcome env) (ev_channel event)
       MODEL_NAME default_limit)
    cleaned_text.


(** Sample data. *)

Definition turn (n : Z) (channel ts incoming outgoing model : string) (at_ : Z)
  : Conversation :=
  {| id := n; user_id := lit "U7"; channel_id := lit channel; message_id := lit ts;
     incoming_message := lit incoming; outgoing_message := lit outgoing;
     model_name := lit model; created_at := at_; updated_at := None |}.

(** A history with three turns of channel [C1] and model [m], stored out
    of order among rows of another channel and of the echo flow. *)
Definition three_turns : Session :=
  {| table :=
       [turn 1 "C1" "t2" "second question" "<think>hm</think> second answer" "m" 20;
        turn 2 "C2" "t9" "elsewhere" "other" "m" 21;
        turn 3 "C1" "t1" "first question" "first answer" "m" 10;
        turn 4 "C1" "t8" "hello" "hello" "echo" 25;
        turn 5 "C1" "t3" "third question" "oops</think>third answer" "m" 30];
     next_id := 6;
     journal := [] |}.

Definition empty_session : Session :=
  {| table := []; next_id := 1; journal := [] |}.

Definition cvd_event : Event :=
  {| ev_text := lit "<@U1> what is CVD?"; ev_user := lit "U7";
     ev_channel := lit "C1"; ev_ts := lit "1700000000.000100" |}.

Definition cvd_response : str :=
  lit "<think>reasoning</think>CVD is chemical vapor deposition.".

(** The endpoint answers [cvd_response]; the database works. *)
Definition healthy_env : Env :=
  {| insert_outcome := Succeeds; insert_time := 10; select_outcome := Succeeds;
     update_outcome := Succeeds; update_time := 12;
     post := fun _ _ => Response cvd_response |}.


End Spec.

(* ================================================================= *)
(** * Further notions, for the properties beyond the stated ones *)

Module More.

Import Db Util Bot Spec.

(** No whitespace at either end. *)
Definition trimmed (s : str) : Prop := strip s = s.

Definition no_whitespace (s : str) : bool := forallb (fun c => negb (is_space c)) s.

(** The lines [get_recent_conversations] joins for a list of rows. *)
Definition context_lines_of (rows : list Conversation) : list str :=
  flat_map (fun c => [user_line c; assistant_line c]) rows.

(** The columns no handler writes once the row is inserted. *)
Definition fixed_columns (c : Conversation) : Z * str * str * str * str * str * Z :=
  (id c, user_id c, channel_id c, message_id c, incoming_message c,
   model_name c, created_at c).

(** The [unique] constraint on [message_id]. *)
Definition unique_message_ids (db : Session) : Prop :=
  NoDup (map message_id (table db)).

(** The text of a section is at most [limit] characters long. *)
Definition block_within (limit : Z) (b : block) : Prop :=
  match b with
  | SectionMrkdwn text => len text <= limit
  | Divider => True
  end.

(** The character of [text] at index [i], when there is one. *)
Definition char_at (text : str) (i : Z) : option char :=
  if i <? 0 then None else nth_error text (Z.to_nat i).

Definition period : char := 46%N.
Definition space : char := 32%N.

(** An event delivered to both handlers, first as a message and then as a
    mention, and answered by the endpoint. *)
Definition both_handlers (MODEL_NAME : str) (db : Session) (env1 env2 : Env)
    (event : Event) : option (Session * list payload) :=
  handle_mention MODEL_NAME (fst (handle_message db env1 event)) env2 event.

(** As [healthy_env], at a time after the rows of [three_turns]. *)
Definition later_env : Env :=
  {| insert_outcome := Succeeds; insert_time := 40; select_outcome := Succeeds;
     update_outcome := Succeeds; update_time := 42;
     post := fun _ _ => Response cvd_response |}.

(** The database works; the call to the endpoint times out. *)
Definition timeout_env : Env :=
  {| insert_outcome := Succeeds; insert_time := 10; select_outcome := Succeeds;
     update_outcome := Succeeds; update_time := 12;
     post := fun _ _ => Timeout |}.


End More.

(* ================================================================= *)
(** * Facts about strings *)

Module PyStrFacts.

Import Spec.

Lemma char_eqb_eq (a b : char) : char_eqb a b = true <-> a = b.
Proof. apply N.eqb_eq. Qed.

Lemma all_space_app (a b : str) :
  all_space (a ++ b) = all_space a && all_space b.
Proof. apply forallb_app. Qed.

Lemma lstrip_split (s : str) :
  exists w, s = w ++ lstrip s /\ all_space w = true.
Proof.
  induction s as [|c s IH]; simpl.
  - exists []. split; reflexivity.
  - destruct (is_space c) eqn:E.
    + destruct IH as [w [H1 H2]]. exists (c :: w). simpl.
      rewrite E, H2. split; [f_equal; exact H1 | reflexivity].
    + exists []. split; reflexivity.
Qed.

Lemma rstrip_split (s : str) :
  exists w, s = rstrip s ++ w /\ all_space w = true.
Proof.
  unfold rstrip. destruct (lstrip_split (rev s)) as [w [H1 H2]].
  exists (rev w). split.
  - rewrite <- rev_app_distr, <- H1, rev_involutive. reflexivity.
  - unfold all_space in *. rewrite forallb_forall in *.
    intros x Hx. apply H2. apply in_rev. exact Hx.
Qed.

Lemma strip_split (s : str) :
  exists l r, s = l ++ strip s ++ r /\ all_space l = true /\ all_space r = true.
Proof.
  unfold strip.
  destruct (lstrip_split s) as [l [H1 H2]].
  destruct (rstrip_split (lstrip s)) as [r [H3 H4]].
  exists l, r. split; [|split]; auto.
  rewrite <- H3. exact H1.
Qed.

Lemma length_strip_le (s : str) : (length (strip s) <= length s)%nat.
Proof.
  destruct (strip_split s) as [l [r [H _]]].
  rewrite H at 2. rewrite !length_app. lia.
Qed.

Lemma strip_nil_all_space (s : str) : strip s = [] -> all_space s = true.
Proof.
  intro H. destruct (strip_split s) as [l [r [H1 [H2 H3]]]].
  rewrite H1, H. simpl. rewrite all_space_app, H2, H3. reflexivity.
Qed.

Lemma lstrip_fixed (s : str) :
  match s with [] => True | c :: _ => is_space c = false end -> lstrip s = s.
Proof. destruct s as [|c s]; simpl; intro H; [reflexivity | rewrite H; reflexivity]. Qed.

Lemma lstrip_head (s : str) :
  match lstrip s with [] => True | c :: _ => is_space c = false end.
Proof.
  induction s as [|c s IH]; simpl; auto.
  destruct (is_space c) eqn:E; auto.
Qed.

Lemma lstrip_all_space (s : str) : all_space s = true -> lstrip s = [].
Proof.
  induction s as [|c s IH]; simpl; auto.
  intro H. apply andb_prop in H as [H1 H2]. rewrite H1. auto.
Qed.

Lemma lstrip_idem (s : str) : lstrip (lstrip s) = lstrip s.
Proof. apply lstrip_fixed, lstrip_head. Qed.

Lemma strip_idem (s : str) : strip (strip s) = strip s.
Proof.
  unfold strip.
  assert (Hl : lstrip (rstrip (lstrip s)) = rstrip (lstrip s)).
  { apply lstrip_fixed.
    destruct (rstrip_split (lstrip s)) as [w [H _]].
    pose proof (lstrip_head s) as Hh.
    destruct (rstrip (lstrip s)) as [|c u]; [exact I|].
    rewrite H in Hh. exact Hh. }
  rewrite Hl. unfold rstrip at 1. unfold rstrip at 1.
  rewrite rev_involutive, lstrip_idem. reflexivity.
Qed.

Lemma strip_nil : strip [] = [].
Proof. reflexivity. Qed.

Lemma strip_not_all_space (s : str) : all_space s = false -> strip s <> [].
Proof.
  intros H E. apply strip_nil_all_space in E. congruence.
Qed.

(** Slices *)

Lemma slice_to_from (s : str) (k : Z) : slice_to s k ++ slice_from s k = s.
Proof. apply firstn_skipn. Qed.

Lemma clamp_inside (n k : Z) : 0 <= k <= n -> clamp n k = Z.to_nat k.
Proof.
  intros H. unfold clamp. destruct (k <? 0) eqn:E; [lia|].
  f_equal. lia.
Qed.

Lemma len_nonneg (s : str) : 0 <= len s.
Proof. unfold len. lia. Qed.

Lemma len_slice_to (s : str) (k : Z) : 0 <= k <= len s -> len (slice_to s k) = k.
Proof.
  intros H. unfold slice_to. rewrite clamp_inside by exact H.
  unfold len in *. rewrite length_firstn. lia.
Qed.

Lemma len_slice_from (s : str) (k : Z) :
  0 <= k <= len s -> len (slice_from s k) = len s - k.
Proof.
  intros H. unfold slice_from. rewrite clamp_inside by exact H.
  unfold len in *. rewrite length_skipn. lia.
Qed.

(** Occurrences *)

Lemma starts_with_iff (needle s : str) :
  starts_with needle s = true <-> exists post, s = needle ++ post.
Proof.
  revert s. induction needle as [|x n IH]; intros s; simpl.
  - split; [intros _; exists s; reflexivity | reflexivity].
  - destruct s as [|y s].
    + split; [discriminate | intros [post H]; discriminate].
    + rewrite andb_true_iff, char_eqb_eq, IH. split.
      * intros [-> [post ->]]. exists post. reflexivity.
      * intros [post H]. injection H as -> ->. split; [reflexivity | exists post; reflexivity].
Qed.

Lemma occurs_at_0 (needle s : str) :
  occurs_at needle s 0 <-> starts_with needle s = true.
Proof.
  rewrite starts_with_iff. unfold occurs_at. split.
  - intros [pre [post [H L]]]. destruct pre; [|discriminate]. exists post. exact H.
  - intros [post H]. exists [], post. split; [exact H | reflexivity].
Qed.

Lemma occurs_at_S (needle : str) (x : char) (s : str) (i : nat) :
  occurs_at needle (x :: s) (S i) <-> occurs_at needle s i.
Proof.
  unfold occurs_at. split.
  - intros [pre [post [H L]]]. destruct pre as [|y pre]; [discriminate|].
    simpl in H, L. injection H as -> ->. exists pre, post. split; [reflexivity | lia].
  - intros [pre [post [-> L]]]. exists (x :: pre), post. split; [reflexivity | simpl; lia].
Qed.

Lemma occurs_at_nil (needle : str) (i : nat) :
  occurs_at needle [] i -> i = 0%nat.
Proof.
  intros [pre [post [H L]]]. destruct pre; [simpl in L; lia | discriminate].
Qed.

Lemma occurs_at_bound (needle s : str) (i : nat) :
  occurs_at needle s i -> (i + length needle <= length s)%nat.
Proof.
  intros [pre [post [-> L]]]. rewrite !length_app. lia.
Qed.

Lemma occurs_at_skipn (needle s : str) (i : nat) :
  occurs_at needle s i <-> ((i <= length s)%nat /\ starts_with needle (skipn i s) = true).
Proof.
  revert s. induction i as [|i IH]; intros s.
  - rewrite occurs_at_0. simpl. split; [intros H; split; [lia | exact H] | intros [_ H]; exact H].
  - destruct s as [|x s].
    + split.
      * intros H. apply occurs_at_nil in H. discriminate.
      * simpl. intros [H _]. lia.
    + rewrite occurs_at_S, IH. simpl. split; intros [H1 H2]; split; auto; lia.
Qed.

Lemma find_first_Some (needle s : str) (i : nat) :
  find_first needle s = Some i ->
  occurs_at needle s i /\ forall j, occurs_at needle s j -> (i <= j)%nat.
Proof.
  revert i. induction s as [|x s IH]; intros i; simpl.
  - destruct (starts_with needle []) eqn:E; [|discriminate].
    intros [= <-]. split; [apply occurs_at_0; exact E | intros; lia].
  - destruct (starts_with needle (x :: s)) eqn:E.
    + intros [= <-]. split; [apply occurs_at_0; exact E | intros; lia].
    + destruct (find_first needle s) as [k|] eqn:F; [|discriminate].
      simpl. intros [= <-]. destruct (IH k eq_refl) as [H1 H2]. split.
      * apply occurs_at_S. exact H1.
      * intros [|j] Hj.
        -- apply occurs_at_0 in Hj. congruence.
        -- apply occurs_at_S in Hj. apply H2 in Hj. lia.
Qed.

Lemma find_first_None (needle s : str) :
  find_first needle s = None <-> ~ occurs needle s.
Proof.
  induction s as [|x s IH]; simpl.
  - destruct (starts_with needle []) eqn:E.
    + split; [discriminate|]. intros H. exfalso. apply H. exists 0%nat.
      apply occurs_at_0. exact E.
    + split; [|reflexivity]. intros _ [i H].
      pose proof (occurs_at_nil _ _ H) as ->. apply occurs_at_0 in H. congruence.
  - destruct (starts_with needle (x :: s)) eqn:E.
    + split; [discriminate|]. intros H. exfalso. apply H. exists 0%nat.
      apply occurs_at_0. exact E.
    + destruct (find_first needle s) as [k|] eqn:F; simpl.
      * split; [discriminate|]. intros H. exfalso. apply H.
        destruct (find_first_Some _ _ _ F) as [H1 _].
        exists (S k). apply occurs_at_S. exact H1.
      * split; [|reflexivity]. intros _ [[|i] H].
        -- apply occurs_at_0 in H. congruence.
        -- apply occurs_at_S in H. apply (proj1 IH eq_refl). exists i. exact H.
Qed.

Lemma find_last_None_at (needle s : str) (j : nat) :
  find_last needle s = None -> ~ occurs_at needle s j.
Proof.
  revert j. induction s as [|x s IH]; intros j; simpl.
  - destruct (starts_with needle []) eqn:E; [discriminate|].
    intros _ H. pose proof (occurs_at_nil _ _ H) as ->.
    apply occurs_at_0 in H. congruence.
  - destruct (find_last needle s) as [k|]; [discriminate|].
    destruct (starts_with needle (x :: s)) eqn:E; [discriminate|].
    intros _ H. destruct j as [|j].
    + apply occurs_at_0 in H. congruence.
    + apply occurs_at_S in H. exact (IH j eq_refl H).
Qed.

Lemma find_last_Some (needle s : str) (i : nat) :
  find_last needle s = Some i -> last_occurrence needle s i.
Proof.
  revert i. induction s as [|x s IH]; intros i; simpl.
  - destruct (starts_with needle []) eqn:E; [|discriminate].
    intros [= <-]. split; [apply occurs_at_0; exact E|].
    intros j Hj. apply occurs_at_nil in Hj. lia.
  - destruct (find_last needle s) as [k|] eqn:F.
    + intros [= <-]. destruct (IH k eq_refl) as [H1 H2]. split.
      * apply occurs_at_S. exact H1.
      * intros [|j] Hj; [lia|]. apply occurs_at_S in Hj. apply H2 in Hj. lia.
    + destruct (starts_with needle (x :: s)) eqn:E; [|discriminate].
      intros [= <-]. split; [apply occurs_at_0; exact E|].
      intros [|j] Hj; [lia|]. exfalso. apply occurs_at_S in Hj.
      exact (find_last_None_at _ _ _ F Hj).
Qed.

Lemma find_last_None (needle s : str) :
  find_last needle s = None <-> ~ occurs needle s.
Proof.
  split.
  - intros H [j Hj]. exact (find_last_None_at _ _ _ H Hj).
  - intros H. destruct (find_last needle s) as [i|] eqn:F; [|reflexivity].
    exfalso. apply H. exists i. apply find_last_Some in F. apply F.
Qed.

Lemma last_occurrence_unique (needle s : str) (i j : nat) :
  last_occurrence needle s i -> last_occurrence needle s j -> i = j.
Proof.
  intros [H1 H2] [H3 H4]. apply H2 in H3. apply H4 in H1. lia.
Qed.

Lemma find_last_iff (needle s : str) (i : nat) :
  find_last needle s = Some i <-> last_occurrence needle s i.
Proof.
  split; [apply find_last_Some|].
  intros H. destruct (find_last needle s) as [k|] eqn:F.
  - f_equal. apply (last_occurrence_unique needle s); [apply find_last_Some; exact F | exact H].
  - exfalso. apply (proj1 (find_last_None needle s) F). exists i. apply H.
Qed.

End PyStrFacts.

(* ================================================================= *)
(** * Facts about [chunk_text] *)

Module ChunkFacts.

Import Spec Util PyStrFacts.

Lemma rfind_bounds (w needle : str) :
  rfind w needle = -1 \/ (0 <= rfind w needle /\ rfind w needle + len needle <= len w).
Proof.
  unfold rfind. destruct (find_last needle w) as [i|] eqn:F; simpl; [right | left; reflexivity].
  apply find_last_Some in F. destruct F as [F _]. apply occurs_at_bound in F.
  unfold len. lia.
Qed.

Lemma find_from_bounds (s needle : str) (start : Z) :
  0 <= start ->
  find_from s needle start = -1
  \/ (start <= find_from s needle start /\ find_from s needle start + len needle <= len s).
Proof.
  intros Hs. unfold find_from.
  destruct (start <? 0) eqn:E; [lia|].
  destruct (len s <? start) eqn:E2; [left; reflexivity|].
  destruct (find_first needle (skipn (Z.to_nat start) s)) as [i|] eqn:F; [right | left; reflexivity].
  apply find_first_Some in F. destruct F as [F _]. apply occurs_at_bound in F.
  rewrite length_skipn in F. unfold len in *. lia.
Qed.

(** The split point lies inside the text, is at least one character in,
    and at most 100 characters beyond [max_length]. *)
Lemma chunk_end_bounds (text : str) (max_length : Z) :
  1 <= max_length -> max_length < len text ->
  1 <= chunk_end_of text max_length <= len text
  /\ chunk_end_of text max_length <= max_length + 100.
Proof.
  intros Hm Hl. unfold chunk_end_of.
  assert (Hw : len (slice_to text max_length) = max_length)
    by (apply len_slice_to; lia).
  pose proof (rfind_bounds (slice_to text max_length) (lit ".")) as Hp.
  pose proof (rfind_bounds (slice_to text max_length) [newline]) as Hn.
  pose proof (rfind_bounds (slice_to text max_length) (lit " ")) as Hsp.
  pose proof (find_from_bounds text (lit " ") max_length ltac:(lia)) as Hf.
  rewrite Hw in Hp, Hn, Hsp.
  change (len (lit ".")) with 1 in Hp. change (len [newline]) with 1 in Hn.
  change (len (lit " ")) with 1 in Hsp, Hf.
  repeat match goal with
         | |- context [if ?b then _ else _] => destruct b eqn:?
         end;
  repeat match goal with
         | H : (_ && _) = true |- _ => apply andb_prop in H; destruct H
         | H : negb _ = true |- _ => apply negb_true_iff in H
         | H : (_ =? _) = true |- _ => apply Z.eqb_eq in H
         | H : (_ =? _) = false |- _ => apply Z.eqb_neq in H
         | H : (_ <? _) = true |- _ => apply Z.ltb_lt in H
         | H : (_ <? _) = false |- _ => apply Z.ltb_ge in H
         end; lia.
Qed.

(** One round of the loop leaves a strictly shorter text. *)
Lemma chunk_round_progress (text : str) (max_length : Z) :
  1 <= max_length -> max_length < len text ->
  (length (strip (slice_from text (chunk_end_of text max_length))) < length text)%nat.
Proof.
  intros Hm Hl.
  destruct (chunk_end_bounds text max_length Hm Hl) as [Hb _].
  pose proof (length_strip_le (slice_from text (chunk_end_of text max_length))) as Hs.
  pose proof (len_slice_from text (chunk_end_of text max_length) ltac:(lia)) as Hf.
  unfold len in *. lia.
Qed.

Lemma chunk_loop_acc (fuel : nat) (text : str) (max_length : Z) (chunks : list str) :
  chunk_loop fuel text max_length chunks
  = option_map (app chunks) (chunk_loop fuel text max_length []).
Proof.
  revert text chunks. induction fuel as [|fuel IH]; intros text chunks.
  - destruct text; simpl; [rewrite app_nil_r|]; reflexivity.
  - destruct text as [|x text]; simpl; [rewrite app_nil_r; reflexivity|].
    destruct (len (x :: text) <=? max_length); [reflexivity|].
    rewrite IH. rewrite (IH _ (if truthy _ then _ else _)).
    destruct (chunk_loop fuel _ max_length []) as [r|]; simpl; [|reflexivity].
    destruct (truthy _); simpl; [rewrite <- app_assoc|]; reflexivity.
Qed.

Lemma chunk_loop_round (fuel : nat) (text : str) (max_length : Z) :
  text <> [] -> max_length < len text ->
  chunk_loop (S fuel) text max_length []
  = option_map (app (round_chunk text max_length))
      (chunk_loop fuel (round_rest text max_length) max_length []).
Proof.
  intros Ht Hl. destruct text as [|x text]; [congruence|].
  simpl chunk_loop. destruct (len (x :: text) <=? max_length) eqn:E.
  - apply Z.leb_le in E. lia.
  - rewrite chunk_loop_acc. unfold round_chunk, round_rest.
    destruct (truthy _); reflexivity.
Qed.

Lemma chunk_loop_fits (fuel : nat) (text : str) (max_length : Z) :
  text <> [] -> len text <= max_length ->
  chunk_loop (S fuel) text max_length [] = Some [text].
Proof.
  intros Ht Hl. destruct text as [|x text]; [congruence|].
  simpl. destruct (len (x :: text) <=? max_length) eqn:E; [reflexivity|].
  apply Z.leb_gt in E. lia.
Qed.

Lemma chunk_loop_nil (fuel : nat) (max_length : Z) :
  chunk_loop fuel [] max_length [] = Some [].
Proof. destruct fuel; reflexivity. Qed.

(** Induction over the rounds of the loop, for [max_length >= 1]: a
    property of (text, result) that holds for the empty text, for a text
    that fits, and is carried over one round, holds of every run; and every
    run with fuel [length text] or more returns. *)
Lemma chunk_loop_rounds (max_length : Z) (P : str -> list str -> Prop) :
  1 <= max_length ->
  P [] [] ->
  (forall text, text <> [] -> len text <= max_length -> P text [text]) ->
  (forall text chunks,
      max_length < len text ->
      P (round_rest text max_length) chunks ->
      P text (round_chunk text max_length ++ chunks)) ->
  forall fuel text, (length text <= fuel)%nat ->
  exists chunks, chunk_loop fuel text max_length [] = Some chunks /\ P text chunks.
Proof.
  intros Hm Hnil Hfit Hround. induction fuel as [|fuel IH]; intros text Hf.
  - destruct text; [|simpl in Hf; lia]. exists []. split; [reflexivity | exact Hnil].
  - assert (Hcase : text = [] \/ text <> [])
      by (destruct text; [left; reflexivity | right; discriminate]).
    destruct Hcase as [-> | Hne]; [exists []; split; [reflexivity | exact Hnil]|].
    destruct (Z_le_gt_dec (len text) max_length) as [Hl|Hl].
    + exists [text]. split; [apply chunk_loop_fits; assumption | apply Hfit; assumption].
    + assert (Hl' : max_length < len text) by lia.
      pose proof (chunk_round_progress text max_length Hm Hl') as Hp.
      destruct (IH (round_rest text max_length)) as [chunks [Hc HP]].
      { unfold round_rest. lia. }
      exists (round_chunk text max_length ++ chunks). split.
      * rewrite chunk_loop_round by assumption. rewrite Hc. reflexivity.
      * apply Hround; assumption.
Qed.

Lemma chunk_loop_more_fuel (max_length : Z) (fuel fuel' : nat) (text : str) (chunks res : list str) :
  chunk_loop fuel text max_length chunks = Some res ->
  (fuel <= fuel')%nat ->
  chunk_loop fuel' text max_length chunks = Some res.
Proof.
  revert fuel' text chunks. induction fuel as [|fuel IH]; intros fuel' text chunks H Hle.
  - destruct text; simpl in H; [|discriminate]. destruct fuel'; exact H.
  - destruct fuel' as [|fuel']; [lia|].
    destruct text as [|x text]; [exact H|].
    simpl in *. destruct (len (x :: text) <=? max_length); [exact H|].
    apply IH; [exact H | lia].
Qed.

(** [chunk_text] with a property of its result. *)
Lemma chunk_text_rounds (max_length : Z) (P : str -> list str -> Prop) :
  1 <= max_length ->
  P [] [] ->
  (forall text, text <> [] -> len text <= max_length -> P text [text]) ->
  (forall text chunks,
      max_length < len text ->
      P (round_rest text max_length) chunks ->
      P text (round_chunk text max_length ++ chunks)) ->
  forall text, exists chunks, chunk_text text max_length = Some chunks /\ P text chunks.
Proof.
  intros Hm Hnil Hfit Hround text. unfold chunk_text.
  apply chunk_loop_rounds; auto.
Qed.

Lemma chunk_text_total (text : str) (max_length : Z) :
  1 <= max_length -> exists chunks, chunk_text text max_length = Some chunks.
Proof.
  intros Hm.
  destruct (chunk_text_rounds max_length (fun _ _ => True) Hm I
              (fun _ _ _ => I) (fun _ _ _ _ => I) text) as [chunks [H _]].
  exists chunks. exact H.
Qed.

Lemma woven_prepend (w text : str) (chunks : list str) :
  all_space w = true -> woven text chunks -> woven (w ++ text) chunks.
Proof.
  intros Hw H. destruct H as [w' Hw' | w' chunk rest chunks Hw' Hrest].
  - apply woven_end. rewrite all_space_app, Hw, Hw'. reflexivity.
  - rewrite app_assoc. apply woven_chunk; [|exact Hrest].
    rewrite all_space_app, Hw, Hw'. reflexivity.
Qed.

Lemma woven_append (w text : str) (chunks : list str) :
  woven text chunks -> all_space w = true -> woven (text ++ w) chunks.
Proof.
  intros H Hw. induction H as [w' Hw' | w' chunk rest chunks Hw' Hrest IH].
  - apply woven_end. rewrite all_space_app, Hw, Hw'. reflexivity.
  - rewrite <- !app_assoc. apply woven_chunk; assumption.
Qed.

Lemma woven_strip (text : str) (chunks : list str) :
  woven (strip text) chunks -> woven text chunks.
Proof.
  intros H. destruct (strip_split text) as [l [r [E [Hl Hr]]]].
  rewrite E. apply woven_prepend; [exact Hl|]. apply woven_append; assumption.
Qed.

Lemma woven_round (text : str) (max_length : Z) (chunks : list str) :
  woven (round_rest text max_length) chunks ->
  woven text (round_chunk text max_length ++ chunks).
Proof.
  unfold round_rest, round_chunk. intros H. apply woven_strip in H.
  rewrite <- (slice_to_from text (chunk_end_of text max_length)) at 1.
  destruct (strip_split (slice_to text (chunk_end_of text max_length)))
    as [l [r [E [Hl Hr]]]].
  destruct (strip (slice_to text (chunk_end_of text max_length))) as [|c cs] eqn:Es.
  - simpl. apply woven_prepend; [|exact H].
    apply strip_nil_all_space. exact Es.
  - simpl truthy. cbv iota. simpl app at 2. rewrite E, <- !app_assoc.
    apply woven_chunk; [exact Hl|]. apply woven_prepend; assumption.
Qed.

Lemma visible_app (a b : str) : visible (a ++ b) = visible a ++ visible b.
Proof. apply filter_app. Qed.

Lemma visible_all_space (w : str) : all_space w = true -> visible w = [].
Proof.
  induction w as [|c w IH]; simpl; [reflexivity|].
  intros H. apply andb_prop in H as [H1 H2]. rewrite H1. simpl. auto.
Qed.

Lemma woven_visible (text : str) (chunks : list str) :
  woven text chunks -> visible text = visible (concat chunks).
Proof.
  induction 1 as [w Hw | w chunk rest chunks Hw Hrest IH]; simpl.
  - apply visible_all_space. exact Hw.
  - rewrite !visible_app, IH, (visible_all_space w Hw). reflexivity.
Qed.

Lemma woven_nil_all_space (text : str) : woven text [] -> all_space text = true.
Proof. inversion 1. assumption. Qed.

Lemma chunk_text_woven (text : str) (max_length : Z) :
  1 <= max_length ->
  exists chunks, chunk_text text max_length = Some chunks /\ woven text chunks.
Proof.
  intros Hm. apply (chunk_text_rounds max_length woven Hm).
  - apply woven_end. reflexivity.
  - intros t _ _. rewrite <- (app_nil_r t) at 1.
    apply (woven_chunk [] t [] []); [reflexivity | apply woven_end; reflexivity].
  - intros t chunks _ H. apply woven_round. exact H.
Qed.

(** Whatever the split point, no chunk is longer than [max_length + 100]. *)
Lemma chunk_text_within_100 (text : str) (max_length : Z) (chunks : list str) :
  1 <= max_length ->
  chunk_text text max_length = Some chunks ->
  Forall (fun chunk => len chunk <= max_length + 100) chunks.
Proof.
  intros Hm H.
  destruct (chunk_text_rounds max_length
              (fun _ chunks => Forall (fun chunk => len chunk <= max_length + 100) chunks)
              Hm) with (text := text) as [chunks' [H1 H2]].
  - constructor.
  - intros t _ Hl. constructor; [lia | constructor].
  - intros t cs Hl Hcs. apply Forall_app. split; [|exact Hcs].
    unfold round_chunk. destruct (truthy _); constructor; [|constructor].
    destruct (chunk_end_bounds t max_length Hm Hl) as [Hb Hb'].
    pose proof (length_strip_le (slice_to t (chunk_end_of t max_length))) as Hs.
    pose proof (len_slice_to t (chunk_end_of t max_length) ltac:(lia)) as Hf.
    unfold len in *. lia.
  - congruence.
Qed.

(** A round that splits inside the window gives a chunk within
    [max_length]. *)
Lemma round_chunk_within (text : str) (max_length : Z) :
  1 <= max_length -> max_length < len text ->
  chunk_end_of text max_length <= max_length ->
  Forall (fun chunk => len chunk <= max_length) (round_chunk text max_length).
Proof.
  intros Hm Hl He. unfold round_chunk. destruct (truthy _); constructor; [|constructor].
  destruct (chunk_end_bounds text max_length Hm Hl) as [Hb _].
  pose proof (length_strip_le (slice_to text (chunk_end_of text max_length))) as Hs.
  pose proof (len_slice_to text (chunk_end_of text max_length) ltac:(lia)) as Hf.
  unfold len in *. lia.
Qed.

(** C1 (code defect): the window of the first round holds a space, and the
    chunk still exceeds [max_length].  The round finds a boundary at the
    last position of the window, which makes [chunk_end] equal to
    [max_length]; the test that stands for "no boundary found" then fires
    and the chunk is extended to the next space.  Shown for
    [max_length = 10] and for the default 2900. *)
Theorem chunk_text_exceeds_despite_space :
  (chunk_text (lit "aaa bbbbb.cc dd") 10 = Some [lit "aaa bbbbb.cc"; lit "dd"]
   /\ In 32%N (slice_to (lit "aaa bbbbb.cc dd") 10)
   /\ len (lit "aaa bbbbb.cc") = 12)
  /\ (chunk_text period_at_window_end default_max_length
      = Some [lit "x " ++ repeat 97%N 2897 ++ lit ".bb"; lit "cc"]
      /\ In 32%N (slice_to period_at_window_end default_max_length)
      /\ len (lit "x " ++ repeat 97%N 2897 ++ lit ".bb") = 2902).
Proof.
  split; (split; [vm_compute; reflexivity | split; [|vm_compute; reflexivity]]).
  - vm_compute. tauto.
  - unfold period_at_window_end. right. left. reflexivity.
Qed.

(** C6: for [max_length >= 1], [chunk_text] returns chunks that lie in the
    text in order with nothing but whitespace before, between and after
    them; the characters that are not whitespace are those of the text, in
    the same order, none lost and none repeated. *)
Theorem chunk_text_reconstructs (text : str) (max_length : Z) :
  1 <= max_length ->
  exists chunks,
    chunk_text text max_length = Some chunks
    /\ woven text chunks
    /\ visible (concat chunks) = visible text.
Proof.
  intros Hm. destruct (chunk_text_woven text max_length Hm) as [chunks [H1 H2]].
  exists chunks. split; [exact H1 | split; [exact H2|]].
  symmetry. apply woven_visible. exact H2.
Qed.

Lemma chunk_text_reconstructs_witness :
  exists chunks,
    chunk_text (lit "hello world. this is a test of the chunker") 10 = Some chunks
    /\ woven (lit "hello world. this is a test of the chunker") chunks
    /\ visible (concat chunks) = visible (lit "hello world. this is a test of the chunker").
Proof.
  apply (chunk_text_reconstructs (lit "hello world. this is a test of the chunker") 10).
  lia.
Defined.

(** C7 (as refuted): the text of two spaces is not empty, and with
    [max_length = 1] the result is the empty list. *)
Lemma chunk_text_blank_gives_no_chunk :
  lit "  " <> [] /\ chunk_text (lit "  ") 1 = Some [].
Proof. split; [discriminate | vm_compute; reflexivity]. Qed.

(** C7 (amended): for [max_length >= 1], [chunk_text] returns, with
    [length text] rounds of fuel and with any larger amount; every round on
    a text longer than [max_length] goes on with a strictly shorter text;
    and the result is not empty when the text holds a character that is not
    whitespace, or is not empty and fits in [max_length]. *)
Theorem chunk_text_terminates (text : str) (max_length : Z) :
  1 <= max_length ->
  (exists chunks,
      chunk_text text max_length = Some chunks
      /\ (forall fuel, (length text <= fuel)%nat ->
                       chunk_loop fuel text max_length [] = Some chunks)
      /\ (all_space text = false \/ (text <> [] /\ len text <= max_length) ->
          chunks <> []))
  /\ (max_length < len text ->
      (length (round_rest text max_length) < length text)%nat).
Proof.
  intros Hm. split.
  - destruct (chunk_text_woven text max_length Hm) as [chunks [H1 H2]].
    exists chunks. split; [exact H1 | split].
    + intros fuel Hf. apply (chunk_loop_more_fuel max_length (length text)); assumption.
    + intros [Hs | [Hne Hl]] ->.
      * apply woven_nil_all_space in H2. congruence.
      * unfold chunk_text in H1. destruct text as [|x text]; [congruence|].
        simpl length in H1. rewrite chunk_loop_fits in H1 by assumption.
        discriminate.
  - intros Hl. apply chunk_round_progress; assumption.
Qed.

Lemma chunk_text_terminates_witness :
  (exists chunks,
      chunk_text (lit "a bc d") 2 = Some chunks
      /\ (forall fuel, (length (lit "a bc d") <= fuel)%nat ->
                       chunk_loop fuel (lit "a bc d") 2 [] = Some chunks)
      /\ (all_space (lit "a bc d") = false
          \/ (lit "a bc d" <> [] /\ len (lit "a bc d") <= 2) ->
          chunks <> []))
  /\ (2 < len (lit "a bc d") ->
      (length (round_rest (lit "a bc d") 2) < length (lit "a bc d"))%nat).
Proof.
  apply (chunk_text_terminates (lit "a bc d") 2). lia.
Defined.

End ChunkFacts.

(* ================================================================= *)
(** * Facts about the patterns *)

Module ReFacts.

Import Spec Util PyStrFacts.

Lemma match_here_lits (p : str) (r : Re.regex) (s : str) :
  Re.match_here (map Re.Lit p ++ r) s
  = if starts_with p s then Re.match_here r (skipn (length p) s) else None.
Proof.
  revert s. induction p as [|c p IH]; intros s; simpl; [reflexivity|].
  destruct s as [|x s]; [reflexivity|].
  replace (char_eqb c x) with (char_eqb x c) by apply N.eqb_sym.
  destruct (char_eqb x c); simpl; [apply IH | reflexivity].
Qed.

Lemma match_here_only_lits (p s : str) :
  Re.match_here (map Re.Lit p) s
  = if starts_with p s then Some ([], skipn (length p) s) else None.
Proof.
  rewrite <- (app_nil_r (map Re.Lit p)). rewrite match_here_lits. reflexivity.
Qed.

Lemma find_first_cons (needle : str) (x : char) (s : str) :
  find_first needle (x :: s)
  = if starts_with needle (x :: s) then Some 0%nat
    else option_map S (find_first needle s).
Proof. reflexivity. Qed.

Lemma search_cons (r : Re.regex) (x : char) (s : str) :
  Re.search r (x :: s)
  = match Re.match_here r (x :: s) with
    | Some (g, rest) => Some ([], g, rest)
    | None =>
        match Re.search r s with
        | Some (before, g, rest) => Some (x :: before, g, rest)
        | None => None
        end
    end.
Proof. reflexivity. Qed.

Lemma search_nil (r : Re.regex) :
  Re.search r []
  = match Re.match_here r [] with
    | Some (g, rest) => Some ([], g, rest)
    | None => None
    end.
Proof. reflexivity. Qed.

Lemma greedy_star_sound (set : char -> bool) (k : str -> Re.matched) (s : str)
    (r : str * str) :
  Re.greedy_star set k s = Some r ->
  exists body t, s = body ++ t /\ forallb set body = true /\ k t = Some r.
Proof.
  induction s as [|x s IH]; simpl; intros H.
  - exists [], []. auto.
  - destruct (set x) eqn:E.
    + destruct (Re.greedy_star set k s) as [r'|] eqn:G.
      * injection H as <-. destruct (IH eq_refl) as [body [t [-> [Hb Hk]]]].
        exists (x :: body), t. simpl. rewrite E, Hb. auto.
      * exists [], (x :: s). auto.
    + exists [], (x :: s). auto.
Qed.

Lemma greedy_star_run (set : char -> bool) (k : str -> Re.matched) (body t : str)
    (r : str * str) :
  forallb set body = true ->
  match t with [] => True | c :: _ => set c = false end ->
  k t = Some r ->
  Re.greedy_star set k (body ++ t) = Some r.
Proof.
  intros Hb Ht Hk. induction body as [|x body IH]; simpl.
  - destruct t as [|c t]; [exact Hk|]. simpl. rewrite Ht. exact Hk.
  - simpl in Hb. apply andb_prop in Hb as [Hx Hb]. rewrite Hx, (IH Hb). reflexivity.
Qed.

(** ** The rounds of [re.sub] and [re.finditer] are enough *)

Lemma lazy_star_rest (set : char -> bool) (k : str -> Re.matched) :
  (forall s g rest, k s = Some (g, rest) -> (length rest <= length s)%nat) ->
  forall s g rest,
    Re.lazy_star set k s = Some (g, rest) -> (length rest <= length s)%nat.
Proof.
  intros Hk. induction s as [|x s IH]; intros g rest; simpl.
  - destruct (k []) as [[g' rest']|] eqn:E; [|discriminate].
    intros [= <- <-]. apply (Hk _ _ _ E).
  - destruct (k (x :: s)) as [[g' rest']|] eqn:E.
    + intros [= <- <-]. apply (Hk _ _ _ E).
    + destruct (set x); [|discriminate].
      destruct (Re.lazy_star set k s) as [[g' rest']|] eqn:F; [|discriminate].
      intros [= <- <-]. specialize (IH _ _ eq_refl). simpl. lia.
Qed.

Lemma greedy_star_rest (set : char -> bool) (k : str -> Re.matched) :
  (forall s g rest, k s = Some (g, rest) -> (length rest <= length s)%nat) ->
  forall s g rest,
    Re.greedy_star set k s = Some (g, rest) -> (length rest <= length s)%nat.
Proof.
  intros Hk s g rest H. apply greedy_star_sound in H.
  destruct H as [body [t [-> [_ H]]]]. apply Hk in H. rewrite length_app. lia.
Qed.

(** A match never gives back more than it was given. *)
Lemma match_here_rest (r : Re.regex) (s g rest : str) :
  Re.match_here r s = Some (g, rest) -> (length rest <= length s)%nat.
Proof.
  revert s g rest. induction r as [|[c|set|set] r IH]; intros s g rest; simpl.
  - intros [= <- <-]. lia.
  - destruct s as [|x s]; [discriminate|].
    destruct (char_eqb x c); [|discriminate].
    intros H. apply IH in H. simpl. lia.
  - unfold Re.greedy_plus. destruct s as [|x s]; [discriminate|].
    destruct (set x); [|discriminate].
    intros H. apply (greedy_star_rest set _ IH) in H. simpl. lia.
  - apply (lazy_star_rest set _ IH).
Qed.

(** A pattern that starts with a literal consumes a character. *)
Lemma search_rest_shorter (c : char) (r : Re.regex) (s before g rest : str) :
  Re.search (Re.Lit c :: r) s = Some (before, g, rest) ->
  (length rest < length s)%nat.
Proof.
  revert before. induction s as [|x s IH]; intros before.
  - rewrite search_nil. simpl. discriminate.
  - rewrite search_cons.
    destruct (Re.match_here (Re.Lit c :: r) (x :: s)) as [[g' rest']|] eqn:E.
    + intros [= <- <- <-]. simpl in E. destruct (char_eqb x c); [|discriminate].
      apply match_here_rest in E. simpl. lia.
    + destruct (Re.search (Re.Lit c :: r) s) as [[[b g'] rest']|] eqn:F; [|discriminate].
      intros [= <- <- <-]. specialize (IH _ eq_refl). simpl. lia.
Qed.

Lemma sub_rounds_stable (c : char) (r : Re.regex) (repl : str -> str) (n m : nat) (s : str) :
  (length s <= n)%nat -> (length s <= m)%nat ->
  Re.sub_rounds n (Re.Lit c :: r) repl s = Re.sub_rounds m (Re.Lit c :: r) repl s.
Proof.
  revert m s. induction n as [|n IH]; intros m s Hn Hm.
  - destruct s; [|simpl in Hn; lia]. destruct m; reflexivity.
  - destruct m as [|m].
    + destruct s; [|simpl in Hm; lia]. reflexivity.
    + cbn [Re.sub_rounds].
      destruct (Re.search (Re.Lit c :: r) s) as [[[b g] rest]|] eqn:F; [|reflexivity].
      apply search_rest_shorter in F. f_equal. f_equal. apply IH; lia.
Qed.

(** The equation of [re.sub] for a pattern that starts with a literal, as
    the three patterns of the source do. *)
Lemma sub_unfold (c : char) (r : Re.regex) (repl : str -> str) (s : str) :
  Re.sub (Re.Lit c :: r) repl s
  = match Re.search (Re.Lit c :: r) s with
    | None => s
    | Some (before, g, rest) => before ++ repl g ++ Re.sub (Re.Lit c :: r) repl rest
    end.
Proof.
  unfold Re.sub. destruct (length s) as [|n] eqn:El.
  - destruct s; [|discriminate]. reflexivity.
  - cbn [Re.sub_rounds].
    destruct (Re.search (Re.Lit c :: r) s) as [[[b g] rest]|] eqn:F; [|reflexivity].
    apply search_rest_shorter in F. f_equal. f_equal. apply sub_rounds_stable; lia.
Qed.

Lemma finditer_rounds_stable (c : char) (r : Re.regex) (n m : nat) (s : str) :
  (length s <= n)%nat -> (length s <= m)%nat ->
  Re.finditer_rounds n (Re.Lit c :: r) s = Re.finditer_rounds m (Re.Lit c :: r) s.
Proof.
  revert m s. induction n as [|n IH]; intros m s Hn Hm.
  - destruct s; [|simpl in Hn; lia]. destruct m; [reflexivity|].
    cbn [Re.finditer_rounds]. rewrite search_nil. reflexivity.
  - destruct m as [|m].
    + destruct s; [|simpl in Hm; lia].
      cbn [Re.finditer_rounds]. rewrite search_nil. reflexivity.
    + cbn [Re.finditer_rounds].
      destruct (Re.search (Re.Lit c :: r) s) as [[[b g] rest]|] eqn:F; [|reflexivity].
      apply search_rest_shorter in F. f_equal. apply IH; lia.
Qed.

(** The equation of [re.finditer] for such a pattern. *)
Lemma finditer_unfold (c : char) (r : Re.regex) (s : str) :
  Re.finditer (Re.Lit c :: r) s
  = match Re.search (Re.Lit c :: r) s with
    | None => []
    | Some (_, g, rest) => g :: Re.finditer (Re.Lit c :: r) rest
    end.
Proof.
  unfold Re.finditer. destruct (length s) as [|n] eqn:El.
  - destruct s; [|discriminate]. cbn [Re.finditer_rounds]. rewrite search_nil. reflexivity.
  - cbn [Re.finditer_rounds].
    destruct (Re.search (Re.Lit c :: r) s) as [[[b g] rest]|] eqn:F; [|reflexivity].
    apply search_rest_shorter in F. f_equal. apply finditer_rounds_stable; lia.
Qed.

(** The lazy group runs up to the first place where the rest of the
    pattern, a literal [p], is found. *)
Lemma lazy_any_then_lits (p s : str) :
  Re.lazy_star Re.any_char (Re.match_here (map Re.Lit p)) s
  = match find_first p s with
    | Some j => Some (firstn j s, skipn (j + length p) s)
    | None => None
    end.
Proof.
  induction s as [|x s IH]; simpl; rewrite match_here_only_lits.
  - destruct (starts_with p []); reflexivity.
  - destruct (starts_with p (x :: s)); [reflexivity|].
    rewrite IH. destruct (find_first p s); reflexivity.
Qed.

Lemma match_here_think (s : str) :
  Re.match_here THINK_TAG_PATTERN s
  = if starts_with start_tag s
    then match find_first end_tag (skipn 7 s) with
         | Some j => Some (firstn j (skipn 7 s), skipn (j + 8) (skipn 7 s))
         | None => None
         end
    else None.
Proof.
  unfold THINK_TAG_PATTERN, Re.lits. rewrite match_here_lits.
  fold start_tag. destruct (starts_with start_tag s); [|reflexivity].
  change (length (lit "<think>")) with 7%nat.
  cbn [app Re.match_here]. rewrite lazy_any_then_lits. reflexivity.
Qed.

Lemma no_occurrence_in_suffix (needle s : str) (n : nat) :
  find_first needle s = None -> find_first needle (skipn n s) = None.
Proof.
  rewrite !find_first_None. intros H [i Hi]. apply H. clear H.
  destruct (Nat.le_gt_cases n (length s)) as [Hn|Hn].
  - exists (n + i)%nat. destruct Hi as [pre [post [E L]]].
    exists (firstn n s ++ pre), post. split.
    + rewrite <- app_assoc, <- E. symmetry. apply firstn_skipn.
    + rewrite length_app, length_firstn. lia.
  - rewrite skipn_all2 in Hi by lia. pose proof (occurs_at_nil _ _ Hi) as ->.
    exists (length s). destruct Hi as [pre [post [E L]]].
    destruct pre; [|discriminate]. simpl in E.
    destruct needle; [|discriminate]. exists s, []. split; [|reflexivity].
    simpl. symmetry. apply app_nil_r.
Qed.

(** [re.search] with the think pattern: the first start tag, and the first
    end tag behind it. *)
Lemma search_think (s : str) :
  Re.search THINK_TAG_PATTERN s
  = match find_first start_tag s with
    | None => None
    | Some i =>
        match find_first end_tag (skipn (i + 7) s) with
        | None => None
        | Some j =>
            Some (firstn i s, firstn j (skipn (i + 7) s),
                  skipn (j + 8) (skipn (i + 7) s))
        end
    end.
Proof.
  induction s as [|x s IH].
  - reflexivity.
  - rewrite search_cons, match_here_think, find_first_cons.
    destruct (starts_with start_tag (x :: s)) eqn:E.
    + change (0 + 7)%nat with 7%nat.
      destruct (find_first end_tag (skipn 7 (x :: s))) as [j|] eqn:F; [reflexivity|].
      rewrite IH. destruct (find_first start_tag s) as [i|]; [|reflexivity].
      change (skipn 7 (x :: s)) with (skipn 6 s) in F.
      apply (no_occurrence_in_suffix _ _ (i + 1)) in F.
      rewrite skipn_skipn in F. replace (i + 1 + 6)%nat with (i + 7)%nat in F by lia.
      rewrite F. reflexivity.
    + rewrite IH. destruct (find_first start_tag s) as [i|]; [|reflexivity].
      cbn [option_map]. change (skipn (S i + 7) (x :: s)) with (skipn (i + 7) s).
      destruct (find_first end_tag (skipn (i + 7) s)); reflexivity.
Qed.

(** [finditer] with the think pattern yields the spans of the
    specification, round by round. *)
Lemma finditer_rounds_think (n : nat) (s : str) :
  map strip (Re.finditer_rounds n THINK_TAG_PATTERN s) = think_spans_rounds n s.
Proof.
  revert s. induction n as [|n IH]; intros s; [reflexivity|].
  simpl. rewrite search_think.
  destruct (find_first start_tag s) as [i|]; [|reflexivity].
  destruct (find_first end_tag (skipn (i + 7) s)) as [j|]; [|reflexivity].
  simpl. rewrite IH. reflexivity.
Qed.

Lemma finditer_think (s : str) :
  map strip (Re.finditer THINK_TAG_PATTERN s) = think_spans s.
Proof. apply finditer_rounds_think. Qed.

(** The rounds of [think_spans] are enough: more rounds find nothing more. *)
Lemma think_spans_rounds_stable (n m : nat) (s : str) :
  (length s <= n)%nat -> (length s <= m)%nat ->
  think_spans_rounds n s = think_spans_rounds m s.
Proof.
  revert m s. induction n as [|n IH]; intros m s Hn Hm.
  - destruct s; [|simpl in Hn; lia]. destruct m; reflexivity.
  - destruct m as [|m].
    + destruct s; [|simpl in Hm; lia]. reflexivity.
    + simpl. destruct (find_first start_tag s) as [i|] eqn:Fi; [|reflexivity].
      destruct (find_first end_tag (skipn (i + 7) s)) as [j|] eqn:Fj; [|reflexivity].
      f_equal.
      assert (H : (length (skipn (j + 8) (skipn (i + 7) s)) < length s)%nat).
      { apply find_first_Some in Fj. destruct Fj as [Fj _].
        apply occurs_at_bound in Fj. change (length end_tag) with 8%nat in Fj.
        rewrite !length_skipn in *. lia. }
      apply IH; lia.
Qed.

Lemma think_spans_unfold (s : str) :
  think_spans s
  = match find_first start_tag s with
    | None => []
    | Some i =>
        match find_first end_tag (skipn (i + 7) s) with
        | None => []
        | Some j =>
            strip (firstn j (skipn (i + 7) s))
            :: think_spans (skipn (j + 8) (skipn (i + 7) s))
        end
    end.
Proof.
  unfold think_spans. destruct (length s) as [|n] eqn:El.
  - destruct s; [reflexivity | discriminate].
  - cbn [think_spans_rounds].
    destruct (find_first start_tag s) as [i|] eqn:Fi; [|reflexivity].
    destruct (find_first end_tag (skipn (i + 7) s)) as [j|] eqn:Fj; [|reflexivity].
    f_equal. apply think_spans_rounds_stable; [|lia].
    apply find_first_Some in Fj. destruct Fj as [Fj _].
    apply occurs_at_bound in Fj. change (length end_tag) with 8%nat in Fj.
    rewrite !length_skipn in *. lia.
Qed.

Lemma no_span_no_match (s : str) :
  ~ has_think_span s -> think_spans s = [].
Proof.
  intros H. rewrite think_spans_unfold.
  destruct (find_first start_tag s) as [i|] eqn:Fi; [|reflexivity].
  destruct (find_first end_tag (skipn (i + 7) s)) as [j|] eqn:Fj; [|reflexivity].
  exfalso. apply H.
  apply find_first_Some in Fi. destruct Fi as [[pre [post [E L]]] _].
  apply find_first_Some in Fj. destruct Fj as [[inner [post' [E' L']]] _].
  exists pre, inner, post'. rewrite E. f_equal. f_equal.
  rewrite <- E'. rewrite E. rewrite <- L.
  change 7%nat with (length start_tag).
  rewrite skipn_app, skipn_all2 by lia.
  replace (length pre + length start_tag - length pre)%nat with (length start_tag) by lia.
  rewrite skipn_app, skipn_all, Nat.sub_diag. reflexivity.
Qed.

Lemma extract_without_end_tag (text : str) :
  find_last end_tag text = None ->
  extract_think_and_answer text = (None, strip text).
Proof.
  intros H. unfold extract_think_and_answer, rfind. fold end_tag. rewrite H.
  reflexivity.
Qed.

Lemma extract_with_end_tag (text : str) (i : nat) :
  find_last end_tag text = Some i ->
  extract_think_and_answer text
  = (Some (think_spans text), strip (skipn (i + 8) text)).
Proof.
  intros H. unfold extract_think_and_answer, rfind. fold end_tag. rewrite H.
  cbn [index_or_minus1].
  destruct (Z.of_nat i =? -1) eqn:E; [apply Z.eqb_eq in E; lia|].
  rewrite finditer_think. f_equal. f_equal.
  apply find_last_Some in H. destruct H as [H _]. apply occurs_at_bound in H.
  change (length end_tag) with 8%nat in H.
  unfold slice_from. rewrite clamp_inside by (unfold len; lia).
  f_equal. lia.
Qed.

(** C2: [extract_think_and_answer] returns [None] and the trimmed input
    when the input has no end tag; otherwise it returns the trimmed inner
    texts of the think spans, in order, and the trimmed text behind the last
    end tag.  On ["<think>A</think><think>B</think>tail"] the result is
    [(["A"; "B"], "tail")]. *)
Theorem extract_think_and_answer_spec (text : str) :
  (~ occurs end_tag text ->
   extract_think_and_answer text = (None, strip text))
  /\ (forall i, last_occurrence end_tag text i ->
        extract_think_and_answer text
        = (Some (think_spans text), strip (skipn (i + 8) text)))
  /\ extract_think_and_answer (lit "<think>A</think><think>B</think>tail")
     = (Some [lit "A"; lit "B"], lit "tail").
Proof.
  split; [|split].
  - intros H. apply extract_without_end_tag. apply find_last_None. exact H.
  - intros i H. apply extract_with_end_tag. apply find_last_iff. exact H.
  - vm_compute. reflexivity.
Qed.

(** C10: the first component is [None] exactly when the input has no end
    tag; an input with an end tag and no complete span gives the empty list
    and the trimmed text behind the last end tag, as on
    ["oops</think>tail"]. *)
Theorem extract_none_iff_no_end_tag (text : str) :
  (fst (extract_think_and_answer text) = None <-> ~ occurs end_tag text)
  /\ (forall i, last_occurrence end_tag text i -> ~ has_think_span text ->
        extract_think_and_answer text = (Some [], strip (skipn (i + 8) text)))
  /\ extract_think_and_answer (lit "oops</think>tail") = (Some [], lit "tail").
Proof.
  split; [|split].
  - destruct (find_last end_tag text) as [i|] eqn:F.
    + rewrite (extract_with_end_tag _ _ F). simpl. split; [discriminate|].
      intros H. exfalso. apply H. exists i. apply find_last_Some in F. apply F.
    + rewrite (extract_without_end_tag _ F). simpl. split; [|reflexivity].
      intros _. apply find_last_None. exact F.
  - intros i H Hn. apply find_last_iff in H.
    rewrite (extract_with_end_tag _ _ H), (no_span_no_match _ Hn). reflexivity.
  - vm_compute. reflexivity.
Qed.

End ReFacts.

(* ================================================================= *)
(** * Facts about [clean_message] *)

Module MentionFacts.

Import Spec Util PyStrFacts ReFacts.

Lemma match_here_mention (s : str) :
  Re.match_here SLACK_USER_MENTION_PATTERN s
  = if starts_with (lit "<@") s
    then Re.greedy_plus Re.upper_or_digit (Re.match_here (map Re.Lit (lit ">")))
           (skipn 2 s)
    else None.
Proof.
  unfold SLACK_USER_MENTION_PATTERN, Re.lits. rewrite match_here_lits. reflexivity.
Qed.

Lemma match_here_mention_sound (s g rest : str) :
  Re.match_here SLACK_USER_MENTION_PATTERN s = Some (g, rest) ->
  exists m, is_mention m /\ s = m ++ rest.
Proof.
  rewrite match_here_mention. destruct (starts_with (lit "<@") s) eqn:E; [|discriminate].
  apply starts_with_iff in E. destruct E as [post ->].
  change (skipn 2 (lit "<@" ++ post)) with post.
  unfold Re.greedy_plus. destruct post as [|x post]; [discriminate|].
  destruct (Re.upper_or_digit x) eqn:Ex; [|discriminate].
  intros H. apply greedy_star_sound in H. destruct H as [body [t [-> [Hb Hk]]]].
  rewrite match_here_only_lits in Hk.
  destruct (starts_with (lit ">") t) eqn:Et; [|discriminate].
  apply starts_with_iff in Et. destruct Et as [post' ->].
  change (skipn (length (lit ">")) (lit ">" ++ post')) with post' in Hk.
  injection Hk as _ <-.
  exists (lit "<@" ++ (x :: body) ++ lit ">"). split.
  - exists (x :: body). split; [reflexivity | split; [discriminate|]].
    simpl. rewrite Ex, Hb. reflexivity.
  - rewrite <- !app_assoc. reflexivity.
Qed.

Lemma match_here_mention_complete (m post : str) :
  is_mention m ->
  Re.match_here SLACK_USER_MENTION_PATTERN (m ++ post) = Some ([], post).
Proof.
  intros [body [-> [Hne Hb]]]. rewrite match_here_mention.
  rewrite <- !app_assoc.
  change (starts_with (lit "<@") (lit "<@" ++ body ++ lit ">" ++ post)) with true.
  change (skipn 2 (lit "<@" ++ body ++ lit ">" ++ post)) with (body ++ lit ">" ++ post).
  destruct body as [|x body]; [congruence|].
  simpl in Hb. apply andb_prop in Hb as [Hx Hb].
  simpl. rewrite Hx. apply greedy_star_run; [exact Hb | reflexivity | reflexivity].
Qed.

Lemma is_mention_not_nil (m : str) : is_mention m -> (4 <= length m)%nat.
Proof.
  intros [body [-> [Hne _]]]. rewrite !length_app.
  destruct body; [congruence|]. simpl. lia.
Qed.

Lemma mention_at_0 (s : str) :
  mention_at s 0 <-> exists m post, s = m ++ post /\ is_mention m.
Proof.
  split.
  - intros [pre [m [post [E [Hm L]]]]]. destruct pre; [|discriminate].
    exists m, post. auto.
  - intros [m [post [E Hm]]]. exists [], m, post. auto.
Qed.

Lemma mention_at_S (x : char) (s : str) (j : nat) :
  mention_at (x :: s) (S j) <-> mention_at s j.
Proof.
  split.
  - intros [pre [m [post [E [Hm L]]]]]. destruct pre as [|y pre]; [discriminate|].
    simpl in E, L. injection E as -> ->. exists pre, m, post. auto.
  - intros [pre [m [post [-> [Hm L]]]]]. exists (x :: pre), m, post.
    simpl. auto.
Qed.

Lemma has_mention_iff (s : str) : has_mention s <-> exists j, mention_at s j.
Proof.
  split.
  - intros [pre [m [post [E Hm]]]]. exists (length pre), pre, m, post. auto.
  - intros [j [pre [m [post [E [Hm _]]]]]]. exists pre, m, post. auto.
Qed.

Lemma match_here_mention_None (s : str) :
  Re.match_here SLACK_USER_MENTION_PATTERN s = None <-> ~ mention_at s 0.
Proof.
  rewrite mention_at_0. split.
  - intros H [m [post [-> Hm]]]. rewrite match_here_mention_complete in H by exact Hm.
    discriminate.
  - intros H. destruct (Re.match_here SLACK_USER_MENTION_PATTERN s) as [[g rest]|] eqn:E;
      [|reflexivity].
    exfalso. apply H. apply match_here_mention_sound in E.
    destruct E as [m [Hm ->]]. exists m, rest. auto.
Qed.

Lemma mention_at_nil (j : nat) : ~ mention_at [] j.
Proof.
  intros [pre [m [post [E [Hm _]]]]]. apply is_mention_not_nil in Hm.
  apply (f_equal (@length _)) in E. rewrite !length_app in E. simpl in E. lia.
Qed.

Lemma search_mention_None (s : str) :
  Re.search SLACK_USER_MENTION_PATTERN s = None <-> ~ has_mention s.
Proof.
  rewrite has_mention_iff. induction s as [|x s IH].
  - split; [intros _ [j H]; exact (mention_at_nil j H)|].
    intros _. rewrite search_nil.
    destruct (Re.match_here SLACK_USER_MENTION_PATTERN []) as [[g rest]|] eqn:E;
      [|reflexivity].
    apply match_here_mention_sound in E. destruct E as [m [Hm E]].
    apply is_mention_not_nil in Hm. destruct m; [simpl in Hm; lia | discriminate].
  - rewrite search_cons.
    destruct (Re.match_here SLACK_USER_MENTION_PATTERN (x :: s)) as [[g rest]|] eqn:E.
    + split; [discriminate|]. intros H. exfalso. apply H. exists 0%nat.
      apply mention_at_0. apply match_here_mention_sound in E.
      destruct E as [m [Hm ->]]. exists m, rest. auto.
    + apply match_here_mention_None in E.
      destruct (Re.search SLACK_USER_MENTION_PATTERN s) as [[[b g] rest]|] eqn:F.
      * split; [discriminate|]. intros H. exfalso.
        destruct IH as [_ IH]. 
        assert (Hs : ~ (exists j, mention_at s j)).
        { intros [j Hj]. apply H. exists (S j). apply mention_at_S. exact Hj. }
        specialize (IH Hs). discriminate.
      * split; [|reflexivity]. intros _ [[|j] Hj]; [exact (E Hj)|].
        apply mention_at_S in Hj. apply (proj1 IH eq_refl). exists j. exact Hj.
Qed.

Lemma search_mention_Some (s before g rest : str) :
  Re.search SLACK_USER_MENTION_PATTERN s = Some (before, g, rest) ->
  exists m, is_mention m /\ s = before ++ m ++ rest
            /\ forall j, mention_at s j -> (length before <= j)%nat.
Proof.
  revert before g rest. induction s as [|x s IH]; intros before g rest.
  - rewrite search_nil.
    destruct (Re.match_here SLACK_USER_MENTION_PATTERN []) as [[g' rest']|] eqn:E;
      [|discriminate].
    intros [= <- <- <-]. apply match_here_mention_sound in E.
    destruct E as [m [Hm E]]. exists m. split; [exact Hm | split; [exact E|]].
    intros j _. simpl. lia.
  - rewrite search_cons.
    destruct (Re.match_here SLACK_USER_MENTION_PATTERN (x :: s)) as [[g' rest']|] eqn:E.
    + intros [= <- <- <-]. apply match_here_mention_sound in E.
      destruct E as [m [Hm E]]. exists m. split; [exact Hm | split; [exact E|]].
      intros j _. simpl. lia.
    + apply match_here_mention_None in E.
      destruct (Re.search SLACK_USER_MENTION_PATTERN s) as [[[b g'] rest']|] eqn:F;
        [|discriminate].
      intros [= <- <- <-]. destruct (IH _ _ _ eq_refl) as [m [Hm [Es Hl]]].
      exists m. split; [exact Hm | split; [rewrite Es; reflexivity|]].
      intros [|j] Hj; [exfalso; exact (E Hj)|].
      apply mention_at_S in Hj. apply Hl in Hj. simpl. lia.
Qed.

Lemma has_mentionb_search (s : str) :
  has_mentionb s
  = match Re.search SLACK_USER_MENTION_PATTERN s with Some _ => true | None => false end.
Proof.
  induction s as [|x s IH]; cbn [has_mentionb]; [rewrite search_nil | rewrite search_cons];
    destruct (Re.match_here SLACK_USER_MENTION_PATTERN _) as [[g r]|]; try reflexivity.
  rewrite IH. destruct (Re.search SLACK_USER_MENTION_PATTERN s) as [[[b g] r]|]; reflexivity.
Qed.

Lemma has_mentionb_iff (s : str) : has_mentionb s = true <-> has_mention s.
Proof.
  rewrite has_mentionb_search.
  destruct (Re.search SLACK_USER_MENTION_PATTERN s) as [[[b g] r]|] eqn:F.
  - split; [|reflexivity]. intros _. apply search_mention_Some in F.
    destruct F as [m [Hm [E _]]]. exists b, m, r. auto.
  - split; [discriminate|]. intros H. apply search_mention_None in F. contradiction.
Qed.

(** The equation of [re.sub] for the mention pattern. *)
Lemma sub_mention_unfold (s : str) :
  Re.sub SLACK_USER_MENTION_PATTERN (fun _ => []) s
  = match Re.search SLACK_USER_MENTION_PATTERN s with
    | None => s
    | Some (before, _, rest) =>
        before ++ Re.sub SLACK_USER_MENTION_PATTERN (fun _ => []) rest
    end.
Proof.
  exact (sub_unfold 60%N (tl SLACK_USER_MENTION_PATTERN) (fun _ => []) s).
Qed.

Lemma sub_mention_one_pass (s : str) :
  one_pass s (Re.sub SLACK_USER_MENTION_PATTERN (fun _ => []) s).
Proof.
  remember (length s) as n eqn:En. revert s En.
  induction n as [n IH] using lt_wf_ind. intros s En.
  rewrite sub_mention_unfold.
  destruct (Re.search SLACK_USER_MENTION_PATTERN s) as [[[b g] rest]|] eqn:F.
  - apply search_mention_Some in F. destruct F as [m [Hm [Es Hl]]].
    rewrite Es at 1. apply pass_token; [exact Hm | rewrite <- Es; exact Hl|].
    apply (IH (length rest)); [|reflexivity].
    apply is_mention_not_nil in Hm.
    apply (f_equal (@length _)) in Es. rewrite !length_app in Es. lia.
  - apply pass_end. apply search_mention_None. exact F.
Qed.

Lemma sub_without_mention (s : str) :
  ~ has_mention s -> Re.sub SLACK_USER_MENTION_PATTERN (fun _ => []) s = s.
Proof.
  intros H. rewrite sub_mention_unfold.
  apply search_mention_None in H. rewrite H. reflexivity.
Qed.

Lemma sub_with_mention_shorter (s : str) :
  has_mention s ->
  (length (Re.sub SLACK_USER_MENTION_PATTERN (fun _ => []) s) < length s)%nat.
Proof.
  remember (length s) as n eqn:En. revert s En.
  induction n as [n IH] using lt_wf_ind. intros s En H.
  rewrite sub_mention_unfold.
  destruct (Re.search SLACK_USER_MENTION_PATTERN s) as [[[b g] rest]|] eqn:F.
  - apply search_mention_Some in F. destruct F as [m [Hm [Es _]]].
    apply is_mention_not_nil in Hm.
    apply (f_equal (@length _)) in Es. rewrite !length_app in Es.
    rewrite length_app.
    assert (Hr : (length (Re.sub SLACK_USER_MENTION_PATTERN (fun _ => []) rest)
                  <= length rest)%nat).
    { destruct (Re.search SLACK_USER_MENTION_PATTERN rest) eqn:G.
      - apply Nat.lt_le_incl. apply (IH (length rest)); [lia | reflexivity|].
        destruct p as [[b' g'] rest']. apply search_mention_Some in G.
        destruct G as [m' [Hm' [E' _]]]. exists b', m', rest'. auto.
      - rewrite sub_mention_unfold, G. lia. }
    lia.
  - apply search_mention_None in F. contradiction.
Qed.

Lemma mention_at_behind (a b : str) (j : nat) :
  mention_at (a ++ b) (length a + j) -> mention_at b j.
Proof.
  induction a as [|x a IH]; simpl; intros H; [exact H|].
  apply IH. apply mention_at_S in H. exact H.
Qed.

Lemma mention_has_lt (m : str) : is_mention m -> In 60%N m.
Proof. intros [body [-> _]]. left. reflexivity. Qed.

Lemma in_strip (c : char) (s : str) : In c (strip s) -> In c s.
Proof.
  intros H. destruct (strip_split s) as [l [r [E _]]]. rewrite E.
  apply in_or_app. right. apply in_or_app. left. exact H.
Qed.

(** When every [<] of the text opens a mention token, the pass leaves no
    [<] behind. *)
Lemma one_pass_no_lt (s out : str) :
  one_pass s out ->
  (forall pre post, s = pre ++ 60%N :: post -> mention_at s (length pre)) ->
  ~ In 60%N out.
Proof.
  induction 1 as [s Hn | pre m post out Hm Hl Hp IH]; intros HB Hin.
  - apply in_split in Hin. destruct Hin as [a [b E]].
    apply Hn. apply has_mention_iff. exists (length a). apply (HB a b). exact E.
  - apply in_app_or in Hin. destruct Hin as [Hin | Hin].
    + apply in_split in Hin. destruct Hin as [a [b E]].
      assert (Hj : mention_at (pre ++ m ++ post) (length a)).
      { apply (HB a (b ++ m ++ post)). rewrite E, <- app_assoc. reflexivity. }
      apply Hl in Hj. rewrite E, length_app in Hj. simpl in Hj. lia.
    + apply IH; [|exact Hin]. intros a b E.
      apply (mention_at_behind (pre ++ m)). rewrite <- length_app.
      rewrite <- app_assoc. apply (HB ((pre ++ m) ++ a) b). rewrite E, <- !app_assoc. reflexivity.
Qed.

(** C5 (as refuted): deleting the inner token of ["<@<@U1>U2>"] joins the
    text around it into the token ["<@U2>"], which the result then holds,
    and a second [clean_message] deletes it. *)
Lemma clean_message_leaves_mention :
  clean_message (lit "<@<@U1>U2>") = lit "<@U2>"
  /\ has_mention (clean_message (lit "<@<@U1>U2>"))
  /\ clean_message (clean_message (lit "<@<@U1>U2>")) <> clean_message (lit "<@<@U1>U2>").
Proof.
  split; [vm_compute; reflexivity | split].
  - apply has_mentionb_iff. vm_compute. reflexivity.
  - vm_compute. discriminate.
Qed.

(** C5 (amended): [clean_message] deletes the mention tokens met by one
    left-to-right pass (the leftmost token, then on behind it) and trims the
    result; a text without mention token is only trimmed; applying
    [clean_message] twice gives the same as once exactly when the result
    holds no mention token, which is the case whenever every [<] of the
    text opens a mention token. *)
Theorem clean_message_one_pass (text : str) :
  (exists out, one_pass text out /\ clean_message text = strip out)
  /\ (~ has_mention text -> clean_message text = strip text)
  /\ (clean_message (clean_message text) = clean_message text
      <-> ~ has_mention (clean_message text))
  /\ ((forall pre post, text = pre ++ 60%N :: post -> mention_at text (length pre)) ->
      ~ has_mention (clean_message text)).
Proof.
  split; [|split; [|split]].
  - exists (Re.sub SLACK_USER_MENTION_PATTERN (fun _ => []) text).
    split; [apply sub_mention_one_pass | reflexivity].
  - intros H. unfold clean_message. rewrite sub_without_mention by exact H. reflexivity.
  - split.
    + intros E H. apply sub_with_mention_shorter in H.
      unfold clean_message at 1 in E.
      pose proof (length_strip_le
                    (Re.sub SLACK_USER_MENTION_PATTERN (fun _ => []) (clean_message text)))
        as Hs.
      rewrite E in Hs. lia.
    + intros H. unfold clean_message at 1. rewrite sub_without_mention by exact H.
      unfold clean_message. apply strip_idem.
  - intros HB [pre [m [post [E Hm]]]].
    apply (one_pass_no_lt text _ (sub_mention_one_pass text) HB).
    apply in_strip. fold (clean_message text). rewrite E.
    apply in_or_app. right. apply in_or_app. left. apply mention_has_lt. exact Hm.
Qed.

Lemma clean_message_one_pass_witness :
  clean_message (clean_message (lit "  <@U123ABC> what is CVD? "))
  = clean_message (lit "  <@U123ABC> what is CVD? ").
Proof.
  apply (proj2 (proj1 (proj2 (proj2
           (clean_message_one_pass (lit "  <@U123ABC> what is CVD? ")))))).
  intros H. apply has_mentionb_iff in H. vm_compute in H. discriminate.
Defined.

End MentionFacts.

(* ================================================================= *)
(** * Facts about [format_slack_response] and [get_recent_conversations] *)

Module FormatFacts.

Import Db Spec Util PyStrFacts ChunkFacts ReFacts.

Lemma default_max_length_pos : 1 <= default_max_length.
Proof. unfold default_max_length. lia. Qed.

Lemma thinking_part_blocks_total (parts : list str) :
  exists blocks, thinking_part_blocks parts = Some blocks.
Proof.
  induction parts as [|part parts [blocks IH]]; cbn [thinking_part_blocks].
  - exists []. reflexivity.
  - destruct (chunk_text_total part default_max_length default_max_length_pos)
      as [chunks ->].
    cbn [bind]. rewrite IH. cbn [bind]. eexists. reflexivity.
Qed.

Lemma thinking_section_total (parts : option (list str)) :
  exists blocks, thinking_section parts = Some blocks.
Proof.
  destruct parts as [[|part parts]|]; cbn [thinking_section];
    try (exists []; reflexivity).
  destruct (thinking_part_blocks_total (part :: parts)) as [blocks H].
  rewrite H. cbn [bind]. eexists. reflexivity.
Qed.

(** [format_slack_response] always returns. *)
Lemma format_slack_response_total (response_text : str) :
  exists formatted, format_slack_response response_text = Some formatted.
Proof.
  unfold format_slack_response.
  destruct (extract_think_and_answer response_text) as [parts answer].
  destruct (thinking_section_total parts) as [blocks ->]. cbn [bind].
  destruct (chunk_text_total
              (Re.sub BOLD_TEXT_PATTERN (fun g => lit "*" ++ g ++ lit "*") answer)
              default_max_length default_max_length_pos) as [chunks ->].
  cbn [bind]. eexists. reflexivity.
Qed.

Lemma format_without_end_tag (text : str) :
  ~ occurs end_tag text ->
  exists answer_chunks,
    chunk_text
      (Re.sub BOLD_TEXT_PATTERN (fun g => lit "*" ++ g ++ lit "*") (strip text))
      default_max_length = Some answer_chunks
    /\ format_slack_response text
       = Some (Blocks (SectionMrkdwn (lit "*Answer:*") :: map SectionMrkdwn answer_chunks)).
Proof.
  intros H. apply find_last_None in H. unfold format_slack_response.
  rewrite (extract_without_end_tag _ H). cbn [thinking_section bind].
  destruct (chunk_text_total
              (Re.sub BOLD_TEXT_PATTERN (fun g => lit "*" ++ g ++ lit "*") (strip text))
              default_max_length default_max_length_pos) as [chunks Hc].
  exists chunks. split; [exact Hc|]. rewrite Hc. reflexivity.
Qed.

(** C9: for an input without start tag and without end tag, the thinking
    section contributes no block, and the blocks returned are the
    ["*Answer:*"] heading followed by one section per chunk of the trimmed
    input after the bold rewrite; no divider is among them. *)
Theorem format_without_think_tags (text : str) :
  ~ occurs start_tag text -> ~ occurs end_tag text ->
  thinking_section (fst (extract_think_and_answer text)) = Some []
  /\ exists answer_chunks,
       chunk_text
         (Re.sub BOLD_TEXT_PATTERN (fun g => lit "*" ++ g ++ lit "*") (strip text))
         default_max_length = Some answer_chunks
       /\ format_slack_response text
          = Some (Blocks (SectionMrkdwn (lit "*Answer:*")
                          :: map SectionMrkdwn answer_chunks))
       /\ ~ In Divider (SectionMrkdwn (lit "*Answer:*") :: map SectionMrkdwn answer_chunks).
Proof.
  intros _ H. split.
  - apply find_last_None in H. rewrite (extract_without_end_tag _ H). reflexivity.
  - destruct (format_without_end_tag text H) as [chunks [H1 H2]].
    exists chunks. split; [exact H1 | split; [exact H2|]].
    intros [Hd | Hd]; [discriminate|].
    apply in_map_iff in Hd. destruct Hd as [c [Hd _]]. discriminate.
Qed.

Lemma format_without_think_tags_witness :
  thinking_section
    (fst (extract_think_and_answer (lit "**CVD** is chemical vapor deposition.")))
  = Some []
  /\ exists answer_chunks,
       chunk_text
         (Re.sub BOLD_TEXT_PATTERN (fun g => lit "*" ++ g ++ lit "*")
            (strip (lit "**CVD** is chemical vapor deposition.")))
         default_max_length = Some answer_chunks
       /\ format_slack_response (lit "**CVD** is chemical vapor deposition.")
          = Some (Blocks (SectionMrkdwn (lit "*Answer:*")
                          :: map SectionMrkdwn answer_chunks))
       /\ ~ In Divider (SectionMrkdwn (lit "*Answer:*") :: map SectionMrkdwn answer_chunks).
Proof.
  apply (format_without_think_tags (lit "**CVD** is chemical vapor deposition."));
    apply find_first_None; vm_compute; reflexivity.
Defined.

Lemma insert_desc_perm (c : Conversation) (l : list Conversation) :
  Permutation (insert_desc c l) (c :: l).
Proof.
  induction l as [|d l IH]; simpl; [reflexivity|].
  destruct (created_at d <=? created_at c); [reflexivity|].
  rewrite IH. apply perm_swap.
Qed.

Lemma order_by_created_desc_perm (l : list Conversation) :
  Permutation (order_by_created_desc l) l.
Proof.
  induction l as [|c l IH]; simpl; [reflexivity|].
  rewrite insert_desc_perm. constructor. exact IH.
Qed.

Lemma insert_desc_sorted (c : Conversation) (l : list Conversation) :
  StronglySorted (fun a b => created_at b <= created_at a) l ->
  StronglySorted (fun a b => created_at b <= created_at a) (insert_desc c l).
Proof.
  induction 1 as [|d l Hs IH Hd]; simpl.
  - constructor; constructor.
  - destruct (created_at d <=? created_at c) eqn:E.
    + apply Z.leb_le in E. constructor; [constructor; assumption|].
      constructor; [lia|]. rewrite Forall_forall in *. intros x Hx.
      apply Hd in Hx. lia.
    + apply Z.leb_gt in E. constructor; [exact IH|].
      assert (Hc : Forall (fun b => created_at b <= created_at d) (c :: l))
        by (constructor; [lia | exact Hd]).
      rewrite Forall_forall in *. intros x Hx. apply Hc.
      apply (Permutation_in x (insert_desc_perm c l)). exact Hx.
Qed.

Lemma order_by_created_desc_sorted (l : list Conversation) :
  StronglySorted (fun a b => created_at b <= created_at a) (order_by_created_desc l).
Proof.
  induction l as [|c l IH]; simpl; [constructor|].
  apply insert_desc_sorted. exact IH.
Qed.

Lemma split_on_plain (p : str) :
  no_newline p -> split_on newline p = [p].
Proof.
  unfold no_newline. induction p as [|x p IH]; simpl; intros H; [reflexivity|].
  destruct (char_eqb x newline) eqn:E.
  - apply char_eqb_eq in E. exfalso. apply H. left. exact E.
  - rewrite IH; [reflexivity|]. intros Hin. apply H. right. exact Hin.
Qed.

Lemma split_on_line (p rest : str) :
  no_newline p ->
  split_on newline (p ++ newline :: rest) = p :: split_on newline rest.
Proof.
  unfold no_newline. induction p as [|x p IH]; simpl; intros H.
  - reflexivity.
  - destruct (char_eqb x newline) eqn:E.
    + apply char_eqb_eq in E. exfalso. apply H. left. exact E.
    + rewrite IH; [reflexivity|]. intros Hin. apply H. right. exact Hin.
Qed.

(** Splitting the joined lines gives the lines back. *)
Lemma split_on_join (parts : list str) :
  parts <> [] -> Forall no_newline parts ->
  split_on newline (join [newline] parts) = parts.
Proof.
  induction parts as [|p parts IH]; intros Hne Hall; [congruence|].
  inversion Hall as [|? ? Hp Hrest]; subst.
  destruct parts as [|q parts].
  - simpl. apply split_on_plain. exact Hp.
  - change (join [newline] (p :: q :: parts))
      with (p ++ newline :: join [newline] (q :: parts)).
    rewrite split_on_line by exact Hp. f_equal. apply IH; [discriminate | exact Hrest].
Qed.

Lemma no_newline_user_line (c : Conversation) :
  no_newline (incoming_message c) -> no_newline (user_line c).
Proof.
  unfold no_newline, user_line. intros H Hin.
  apply in_app_or in Hin. destruct Hin as [Hin | Hin].
  - vm_compute in Hin. repeat (destruct Hin as [Hin | Hin]; [discriminate|]). exact Hin.
  - apply in_app_or in Hin. destruct Hin as [[Hin | []] | Hin]; [discriminate|].
    apply in_app_or in Hin. destruct Hin as [Hin | [Hin | []]];
      [exact (H Hin) | discriminate].
Qed.

Lemma no_newline_assistant_line (c : Conversation) :
  no_newline (snd (extract_think_and_answer (outgoing_message c))) ->
  no_newline (assistant_line c).
Proof.
  unfold no_newline, assistant_line. intros H Hin.
  apply in_app_or in Hin. destruct Hin as [Hin | Hin].
  - vm_compute in Hin. repeat (destruct Hin as [Hin | Hin]; [discriminate|]). exact Hin.
  - apply in_app_or in Hin. destruct Hin as [[Hin | []] | Hin]; [discriminate|].
    apply in_app_or in Hin. destruct Hin as [Hin | [Hin | []]];
      [exact (H Hin) | discriminate].
Qed.

Lemma context_lines (conv : Conversation) :
  (let '(_, answer) := extract_think_and_answer (outgoing_message conv) in
   [lit "user: " ++ [dquote] ++ incoming_message conv ++ [dquote];
    lit "assistant: " ++ [dquote] ++ answer ++ [dquote]])
  = [user_line conv; assistant_line conv].
Proof.
  unfold user_line, assistant_line.
  destruct (extract_think_and_answer (outgoing_message conv)). reflexivity.
Qed.

(** C3: when the query goes through, [get_recent_conversations] returns
    the empty string if no row matches the channel and the model; if exactly
    three rows match, and neither their incoming messages nor the answers
    extracted from their outgoing messages hold a newline, the result splits
    at newlines into exactly six lines: for the three rows from oldest to
    newest, the user line and then the assistant line. *)
Theorem get_recent_conversations_lines (db : Session) (channel model : str) :
  (filter (matches channel model) (table db) = [] ->
   get_recent_conversations db Succeeds channel model default_limit = [])
  /\ (length (filter (matches channel model) (table db)) = 3%nat ->
      (forall c, In c (filter (matches channel model) (table db)) ->
                 no_newline (incoming_message c)
                 /\ no_newline (snd (extract_think_and_answer (outgoing_message c)))) ->
      exists c1 c2 c3,
        Permutation [c1; c2; c3] (filter (matches channel model) (table db))
        /\ created_at c1 <= created_at c2 <= created_at c3
        /\ split_on newline
             (get_recent_conversations db Succeeds channel model default_limit)
           = [user_line c1; assistant_line c1;
              user_line c2; assistant_line c2;
              user_line c3; assistant_line c3]).
Proof.
  unfold get_recent_conversations, recent. fold (matches channel model).
  change (default_limit <? 0) with false. cbv iota.
  change (Z.to_nat default_limit) with 5%nat.
  split.
  - intros ->. reflexivity.
  - intros Hlen Hlines.
    pose proof (order_by_created_desc_perm (filter (matches channel model) (table db)))
      as Hperm.
    pose proof (order_by_created_desc_sorted (filter (matches channel model) (table db)))
      as Hsorted.
    pose proof (Permutation_length Hperm) as Hl. rewrite Hlen in Hl.
    destruct (order_by_created_desc (filter (matches channel model) (table db)))
      as [|c3 [|c2 [|c1 [|c0 l]]]]; try discriminate.
    exists c1, c2, c3. split; [|split].
    + rewrite <- Hperm. change [c1; c2; c3] with (rev [c3; c2; c1]).
      symmetry. apply Permutation_rev.
    + inversion Hsorted as [|? ? Hs3 Hf3]; subst.
      inversion Hs3 as [|? ? Hs2 Hf2]; subst.
      inversion Hf3 as [|? ? H32 _]; subst.
      inversion Hf2 as [|? ? H21 _]; subst. lia.
    + cbn [firstn rev app flat_map]. rewrite !context_lines. cbn [app].
      apply split_on_join; [discriminate|].
      assert (Hin : forall c, In c [c3; c2; c1] ->
                no_newline (incoming_message c)
                /\ no_newline (snd (extract_think_and_answer (outgoing_message c)))).
      { intros c Hc. apply Hlines. apply (Permutation_in c Hperm). exact Hc. }
      repeat constructor;
        try (apply no_newline_user_line; apply Hin; simpl; tauto);
        try (apply no_newline_assistant_line; apply Hin; simpl; tauto).
Qed.

Lemma get_recent_conversations_lines_witness :
  exists c1 c2 c3,
    Permutation [c1; c2; c3] (filter (matches (lit "C1") (lit "m")) (table three_turns))
    /\ created_at c1 <= created_at c2 <= created_at c3
    /\ split_on newline
         (get_recent_conversations three_turns Succeeds (lit "C1") (lit "m") default_limit)
       = [user_line c1; assistant_line c1;
          user_line c2; assistant_line c2;
          user_line c3; assistant_line c3].
Proof.
  apply (proj2 (get_recent_conversations_lines three_turns (lit "C1") (lit "m"))).
  - vm_compute. reflexivity.
  - intros c Hc. vm_compute in Hc.
    destruct Hc as [<- | [<- | [<- | []]]]; split; unfold no_newline; vm_compute;
      intuition discriminate.
Defined.

End FormatFacts.

(* ================================================================= *)
(** * Facts about the handlers *)

Module BotFacts.

Import Db Spec More Util Bot PyStrFacts FormatFacts.

Lemma str_eqb_refl (s : str) : str_eqb s s = true.
Proof.
  induction s as [|x s IH]; simpl; [reflexivity|].
  unfold char_eqb. rewrite N.eqb_refl. exact IH.
Qed.

Lemma truthy_true (s : str) : s <> [] -> truthy s = true.
Proof. destruct s; [congruence | reflexivity]. Qed.

Lemma set_first_outgoing_last (ts text : str) (now : Z) (rows : list Conversation)
    (c : Conversation) :
  existsb (has_message_id ts) rows = false ->
  has_message_id ts c = true ->
  set_first_outgoing ts text now (rows ++ [c]) = rows ++ [with_outgoing text now c].
Proof.
  intros Hrows Hc. induction rows as [|d rows IH]; simpl.
  - rewrite Hc. reflexivity.
  - simpl in Hrows. apply orb_false_elim in Hrows as [Hd Hrows].
    rewrite Hd, (IH Hrows). reflexivity.
Qed.

Lemma with_outgoing_message_id (text : str) (now : Z) (c : Conversation) :
  message_id (with_outgoing text now c) = message_id c.
Proof. unfold with_outgoing. destruct (str_eqb (outgoing_message c) text); reflexivity. Qed.

(** Rows with another [message_id] are not touched by the update. *)
Lemma set_first_outgoing_frame (ts text : str) (now : Z) (rows : list Conversation)
    (c : Conversation) :
  has_message_id ts c = false ->
  (In c (set_first_outgoing ts text now rows) <-> In c rows).
Proof.
  intros Hc. induction rows as [|d rows IH]; simpl; [reflexivity|].
  destruct (has_message_id ts d) eqn:Hd; simpl.
  - split; intros [H | H]; auto.
    + subst c. unfold has_message_id in *. rewrite with_outgoing_message_id in Hc.
      congruence.
    + subst c. congruence.
  - rewrite IH. reflexivity.
Qed.


(** Whatever happens, [handle_mention] leaves the rows of other messages
    as they were. *)
Lemma handle_mention_frame (MODEL_NAME : str) (db db' : Session) (env : Env)
    (event : Event) (replies : list payload) (c : Conversation) :
  handle_mention MODEL_NAME db env event = Some (db', replies) ->
  has_message_id (ev_ts event) c = false ->
  (In c (table db') <-> In c (table db)).
Proof.
  intros H Hc. unfold handle_mention in H.
  destruct (truthy (ev_text event)); [|injection H as <- _; reflexivity].
  assert (Ha : forall o now user channel incoming outgoing model,
             In c (table (fst (add_commit db o now user channel (ev_ts event)
                                 incoming outgoing model)))
             <-> In c (table db)).
  { intros o now user channel incoming outgoing model. unfold add_commit.
    destruct o; [|reflexivity].
    destruct (existsb (has_message_id (ev_ts event)) (table db)); [reflexivity|].
    cbn [fst table]. rewrite in_app_iff. split; [|auto].
    intros [Hin | [<- | []]]; [exact Hin|].
    unfold has_message_id in Hc. cbn [message_id] in Hc.
    rewrite str_eqb_refl in Hc. discriminate. }
  destruct (add_commit db (insert_outcome env) (insert_time env) (ev_user event)
              (ev_channel event) (ev_ts event) (clean_message (ev_text event)) []
              MODEL_NAME) as [db1 ok] eqn:Ea.
  specialize (Ha (insert_outcome env) (insert_time env) (ev_user event)
                (ev_channel event) (clean_message (ev_text event)) [] MODEL_NAME).
  rewrite Ea in Ha. cbn [fst] in Ha.
  destruct (post env MODEL_NAME _) as [response_text| |].
  - destruct (format_slack_response response_text); [|discriminate].
    cbn [bind] in H. injection H as <- _. rewrite <- Ha.
    unfold store_response. destruct (update_outcome env); [|reflexivity].
    destruct (find (has_message_id (ev_ts event)) (table db1)); [|reflexivity].
    cbn [table]. apply set_first_outgoing_frame. exact Hc.
  - injection H as <- _. exact Ha.
  - injection H as <- _. exact Ha.
Qed.

Lemma find_last_row (ts : str) (rows : list Conversation) (c : Conversation) :
  existsb (has_message_id ts) rows = false ->
  has_message_id ts c = true ->
  find (has_message_id ts) (rows ++ [c]) = Some c.
Proof.
  intros Hrows Hc. induction rows as [|d rows IH]; simpl.
  - rewrite Hc. reflexivity.
  - simpl in Hrows. apply orb_false_elim in Hrows as [Hd Hrows].
    rewrite Hd. apply IH. exact Hrows.
Qed.




(** A commit that does not go through, because the database raises or
    because the [message_id] is taken, leaves the rows and the journal as
    they were. *)
Lemma add_commit_failed (db : Session) (o : outcome) (now : Z)
    (user channel ts incoming outgoing model : str) :
  snd (add_commit db o now user channel ts incoming outgoing model) = false ->
  table (fst (add_commit db o now user channel ts incoming outgoing model)) = table db
  /\ journal (fst (add_commit db o now user channel ts incoming outgoing model))
     = journal db.
Proof.
  unfold add_commit. destruct o; [|split; reflexivity].
  destruct (existsb (has_message_id ts) (table db)); [split; reflexivity | discriminate].
Qed.



End BotFacts.

(* ================================================================= *)
(** * Sample runs *)

Module Samples.

Import Spec Util.

Example seven_tenths_is_7_over_10 :
  SFdiv Float.prec Float.emax (Float.of_int 7) (Float.of_int 10) = Float.seven_tenths.
Proof. vm_compute. reflexivity. Qed.

(** [2900 * 0.7] is the double just below 2030, so an index of 2030 passes
    the test [index > max_length * 0.7]; [10 * 0.7] is exactly 7. *)
Example threshold_of_default :
  Float.int_gt 2030 (Float.times_seven_tenths 2900) = true
  /\ Float.int_gt 2029 (Float.times_seven_tenths 2900) = false
  /\ Float.int_gt 7 (Float.times_seven_tenths 10) = false.
Proof. vm_compute. auto. Qed.

Example chunk_text_short :
  chunk_text (lit "short text") 2900 = Some [lit "short text"].
Proof. vm_compute. reflexivity. Qed.

Example chunk_text_sentences :
  chunk_text (lit "hello world. this is a test of the chunker") 10
  = Some [lit "hello"; lit "world."; lit "this is a test"; lit "of the"; lit "chunker"].
Proof. vm_compute. reflexivity. Qed.

Example bold_rewrite :
  Re.sub BOLD_TEXT_PATTERN (fun g => lit "*" ++ g ++ lit "*") (lit "a **b** c ****  **d")
  = lit "a *b* c **  **d".
Proof. vm_compute. reflexivity. Qed.

Example clean_message_mention :
  clean_message (lit "<@U1> what is CVD?") = lit "what is CVD?".
Proof. vm_compute. reflexivity. Qed.

Example format_cvd_response :
  format_slack_response cvd_response
  = Some (Blocks [SectionMrkdwn (lit "*Thinking Process* :arrow_down:");
                  SectionMrkdwn (lit "```reasoning```");
                  Divider;
                  SectionMrkdwn (lit "*Answer:*");
                  SectionMrkdwn (lit "CVD is chemical vapor deposition.")]).
Proof. vm_compute. reflexivity. Qed.

Example context_of_three_turns :
  get_recent_conversations three_turns Db.Succeeds (lit "C1") (lit "m") default_limit
  = join [newline]
      [lit "user: " ++ [dquote] ++ lit "first question" ++ [dquote];
       lit "assistant: " ++ [dquote] ++ lit "first answer" ++ [dquote];
       lit "user: " ++ [dquote] ++ lit "second question" ++ [dquote];
       lit "assistant: " ++ [dquote] ++ lit "second answer" ++ [dquote];
       lit "user: " ++ [dquote] ++ lit "third question" ++ [dquote];
       lit "assistant: " ++ [dquote] ++ lit "third answer" ++ [dquote]].
Proof. vm_compute. reflexivity. Qed.

End Samples.

(* ================================================================= *)
(** * More about [clean_message] and [extract_think_and_answer] *)

Module ParseMore.

Import Spec More Util PyStrFacts ReFacts MentionFacts.

Lemma occurs_in_strip (needle s : str) : occurs needle (strip s) -> occurs needle s.
Proof.
  intros [i [pre [post [E _]]]]. destruct (strip_split s) as [l [r [Es _]]].
  exists (length (l ++ pre)), (l ++ pre), (post ++ r). split; [|reflexivity].
  rewrite Es, E, <- !app_assoc. reflexivity.
Qed.

Lemma occurs_at_in_suffix (needle s : str) (k j : nat) :
  (k <= length s)%nat ->
  occurs_at needle (skipn k s) j -> occurs_at needle s (k + j).
Proof.
  intros Hk [pre [post [E L]]]. exists (firstn k s ++ pre), post. split.
  - rewrite <- app_assoc, <- E. symmetry. apply firstn_skipn.
  - rewrite length_app, length_firstn. lia.
Qed.

Lemma occurs_at_of_suffix (needle s : str) (k j : nat) :
  occurs_at needle s (k + j) -> occurs_at needle (skipn k s) j.
Proof.
  rewrite !occurs_at_skipn. rewrite skipn_skipn, length_skipn.
  replace (j + k)%nat with (k + j)%nat by lia. intros [H1 H2]. split; [lia | exact H2].
Qed.

Lemma occurs_at_in_prefix (needle s : str) (k j : nat) :
  occurs_at needle (firstn k s) j -> occurs_at needle s j.
Proof.
  intros [pre [post [E L]]]. exists pre, (post ++ skipn k s). split; [|exact L].
  rewrite <- (firstn_skipn k s) at 1. rewrite E, <- !app_assoc. reflexivity.
Qed.

Lemma sub_mention_length (s : str) :
  (length (Re.sub SLACK_USER_MENTION_PATTERN (fun _ => []) s) <= length s)%nat.
Proof.
  destruct (has_mentionb s) eqn:E.
  - apply Nat.lt_le_incl. apply sub_with_mention_shorter. apply has_mentionb_iff. exact E.
  - rewrite sub_without_mention; [lia|]. intros H. apply has_mentionb_iff in H. congruence.
Qed.

(** X1: the cleaned text has no whitespace at its ends and is never longer
    than the text. *)
Theorem clean_message_trimmed (text : str) :
  trimmed (clean_message text) /\ (length (clean_message text) <= length text)%nat.
Proof.
  split.
  - unfold trimmed, clean_message. apply strip_idem.
  - unfold clean_message.
    pose proof (length_strip_le (Re.sub SLACK_USER_MENTION_PATTERN (fun _ => []) text)).
    pose proof (sub_mention_length text). lia.
Qed.

(** X2: the answer has no whitespace at its ends and holds no end tag. *)
Theorem answer_has_no_end_tag (text : str) :
  trimmed (snd (extract_think_and_answer text))
  /\ ~ occurs end_tag (snd (extract_think_and_answer text)).
Proof.
  destruct (find_last end_tag text) as [i|] eqn:F.
  - rewrite (extract_with_end_tag _ _ F). cbn [snd]. split; [apply strip_idem|].
    intros H. apply occurs_in_strip in H. destruct H as [j Hj].
    apply find_last_Some in F. destruct F as [Hi Hlast].
    pose proof (occurs_at_bound _ _ _ Hi) as Hb.
    change (length end_tag) with 8%nat in Hb.
    apply occurs_at_in_suffix in Hj; [|lia]. apply Hlast in Hj. lia.
  - rewrite (extract_without_end_tag _ F). cbn [snd]. split; [apply strip_idem|].
    intros H. apply occurs_in_strip in H. apply find_last_None in F. contradiction.
Qed.

Lemma think_spans_rounds_clean (n : nat) (s : str) :
  Forall (fun seg => trimmed seg /\ ~ occurs end_tag seg) (think_spans_rounds n s).
Proof.
  revert s. induction n as [|n IH]; intros s; cbn [think_spans_rounds]; [constructor|].
  destruct (find_first start_tag s) as [i|]; [|constructor].
  destruct (find_first end_tag (skipn (i + 7) s)) as [j|] eqn:Fj; [|constructor].
  constructor; [|apply IH]. split; [apply strip_idem|].
  intros H. apply occurs_in_strip in H. destruct H as [k Hk].
  pose proof (occurs_at_bound _ _ _ Hk) as Hb.
  rewrite length_firstn in Hb. change (length end_tag) with 8%nat in Hb.
  apply occurs_at_in_prefix in Hk.
  apply find_first_Some in Fj. destruct Fj as [_ Hmin]. apply Hmin in Hk. lia.
Qed.

(** X3: every reasoning segment has no whitespace at its ends and holds no
    end tag. *)
Theorem reasoning_segments_clean (text : str) (segments : list str) :
  fst (extract_think_and_answer text) = Some segments ->
  Forall (fun seg => trimmed seg /\ ~ occurs end_tag seg) segments.
Proof.
  destruct (find_last end_tag text) as [i|] eqn:F.
  - rewrite (extract_with_end_tag _ _ F). cbn [fst]. intros [= <-].
    apply think_spans_rounds_clean.
  - rewrite (extract_without_end_tag _ F). discriminate.
Qed.

Lemma reasoning_segments_clean_witness :
  Forall (fun seg => trimmed seg /\ ~ occurs end_tag seg) [lit "A"; lit "B"].
Proof.
  apply (reasoning_segments_clean (lit "<think> A </think><think>B</think>tail")).
  vm_compute. reflexivity.
Defined.

Lemma span_found (s : str) :
  has_think_span s ->
  exists i j, find_first start_tag s = Some i
              /\ find_first end_tag (skipn (i + 7) s) = Some j.
Proof.
  intros [pre [inner [post E]]].
  assert (Hs : occurs_at start_tag s (length pre)).
  { exists pre, (inner ++ end_tag ++ post). split; [exact E | reflexivity]. }
  assert (He : occurs_at end_tag s (length pre + 7 + length inner)).
  { exists (pre ++ start_tag ++ inner), post. split.
    - rewrite E, <- !app_assoc. reflexivity.
    - rewrite !length_app. change (length start_tag) with 7%nat. lia. }
  destruct (find_first start_tag s) as [i|] eqn:Fi.
  - exists i. apply find_first_Some in Fi. destruct Fi as [_ Hmin].
    apply Hmin in Hs.
    destruct (find_first end_tag (skipn (i + 7) s)) as [j|] eqn:Fj;
      [exists j; auto|].
    exfalso. apply find_first_None in Fj. apply Fj.
    exists (length pre - i + length inner)%nat. apply occurs_at_of_suffix.
    replace (i + 7 + (length pre - i + length inner))%nat
      with (length pre + 7 + length inner)%nat by lia.
    exact He.
  - exfalso. apply find_first_None in Fi. apply Fi. exists (length pre). exact Hs.
Qed.

Lemma think_spans_nonempty_iff (s : str) :
  think_spans s <> [] <-> has_think_span s.
Proof.
  split.
  - intros H. rewrite think_spans_unfold in H.
    destruct (find_first start_tag s) as [i|] eqn:Fi; [|congruence].
    destruct (find_first end_tag (skipn (i + 7) s)) as [j|] eqn:Fj; [|congruence].
    apply find_first_Some in Fi. destruct Fi as [Hi _].
    apply find_first_Some in Fj. destruct Fj as [Hj _].
    pose proof (occurs_at_bound _ _ _ Hi) as Hb. change (length start_tag) with 7%nat in Hb.
    apply occurs_at_in_suffix in Hj; [|lia].
    destruct Hi as [pre [post [E L]]]. destruct Hj as [pre' [post' [E' L']]].
    exists pre, (firstn (length pre' - (i + 7)) post), post'.
    rewrite E at 1. f_equal. f_equal.
    assert (Hp : post = skipn (i + 7) s).
    { rewrite E at 1. rewrite <- L. change 7%nat with (length start_tag).
      rewrite app_assoc, <- length_app, skipn_app, skipn_all, Nat.sub_diag. reflexivity. }
    rewrite <- (firstn_skipn (length pre' - (i + 7)) post) at 1. f_equal.
    rewrite Hp, skipn_skipn. replace (length pre' - (i + 7) + (i + 7))%nat with (length pre') by lia.
    rewrite E' at 1. rewrite skipn_app, skipn_all, Nat.sub_diag. reflexivity.
  - intros H. destruct (span_found s H) as [i [j [Fi Fj]]].
    rewrite think_spans_unfold, Fi, Fj. discriminate.
Qed.

Lemma reasoning_nonempty_iff_span (text : str) :
  (exists seg rest, fst (extract_think_and_answer text) = Some (seg :: rest))
  <-> has_think_span text.
Proof.
  split.
  - intros [seg [rest H]]. apply think_spans_nonempty_iff.
    destruct (find_last end_tag text) as [i|] eqn:F.
    + rewrite (extract_with_end_tag _ _ F) in H. cbn [fst] in H.
      injection H as H. rewrite H. discriminate.
    + rewrite (extract_without_end_tag _ F) in H. discriminate.
  - intros H. pose proof (proj2 (think_spans_nonempty_iff text) H) as Hn.
    destruct (find_last end_tag text) as [i|] eqn:F.
    + rewrite (extract_with_end_tag _ _ F). cbn [fst].
      destruct (think_spans text) as [|seg rest]; [congruence|].
      exists seg, rest. reflexivity.
    + exfalso. apply find_last_None in F. apply F.
      destruct H as [pre [inner [post E]]].
      exists (length (pre ++ start_tag ++ inner)), (pre ++ start_tag ++ inner), post.
      split; [|reflexivity]. rewrite E, <- !app_assoc. reflexivity.
Qed.

(** X4: the reasoning is a non-empty list exactly when the text holds a
    complete [<think>...</think>] span. *)
Theorem reasoning_present_iff_span (text : str) :
  (exists seg rest, fst (extract_think_and_answer text) = Some (seg :: rest))
  <-> has_think_span text.
Proof. apply reasoning_nonempty_iff_span. Qed.

Lemma find_first_at_front (needle s : str) :
  starts_with needle s = true -> find_first needle s = Some 0%nat.
Proof. intros H. destruct s; simpl; rewrite H; reflexivity. Qed.

Lemma end_tag_not_straddling (r a : str) :
  r <> [] -> ~ occurs end_tag r ->
  starts_with end_tag (r ++ end_tag ++ a) = false.
Proof.
  intros Hne Hr. destruct (starts_with end_tag (r ++ end_tag ++ a)) eqn:E; [|reflexivity].
  exfalso. apply starts_with_iff in E. destruct E as [post E].
  change end_tag with [60; 47; 116; 104; 105; 110; 107; 62]%N in E.
  do 8 (destruct r as [|? r]; [simpl in E; congruence|]).
  apply Hr. exists 0%nat. apply occurs_at_0. apply starts_with_iff.
  exists r. simpl in E. injection E as -> -> -> -> -> -> -> -> _. reflexivity.
Qed.

Lemma first_end_tag_after (r a : str) :
  ~ occurs end_tag r ->
  find_first end_tag (r ++ end_tag ++ a) = Some (length r).
Proof.
  induction r as [|x r IH]; intros Hr.
  - reflexivity.
  - change ((x :: r) ++ end_tag ++ a) with (x :: (r ++ end_tag ++ a)).
    rewrite find_first_cons.
    change (x :: (r ++ end_tag ++ a)) with ((x :: r) ++ end_tag ++ a).
    rewrite end_tag_not_straddling; [|discriminate | exact Hr].
    rewrite IH; [reflexivity|].
    intros [i Hi]. apply Hr. exists (S i). apply occurs_at_S. exact Hi.
Qed.

Lemma end_tag_only_at_front (a : str) (k : nat) :
  ~ occurs end_tag a -> occurs_at end_tag (end_tag ++ a) k -> k = 0%nat.
Proof.
  intros Ha H.
  change (end_tag ++ a) with (60 :: 47 :: 116 :: 104 :: 105 :: 110 :: 107 :: 62 :: a)%N in H.
  destruct k as [|k]; [reflexivity|]. exfalso.
  do 7 (apply occurs_at_S in H;
        destruct k as [|k]; [apply occurs_at_0 in H; simpl in H; discriminate|]).
  apply occurs_at_S in H. apply Ha. exists k. exact H.
Qed.

(** X5: a response made of one think span, whose inner text holds no end
    tag, followed by an answer that holds no end tag, is taken apart into
    that inner text and that answer, both trimmed. *)
Theorem extract_of_one_span (reasoning answer : str) :
  ~ occurs end_tag reasoning -> ~ occurs end_tag answer ->
  extract_think_and_answer (start_tag ++ reasoning ++ end_tag ++ answer)
  = (Some [strip reasoning], strip answer).
Proof.
  intros Hr Ha.
  assert (Hlast : last_occurrence end_tag (start_tag ++ reasoning ++ end_tag ++ answer)
                    (7 + length reasoning)).
  { split.
    - exists (start_tag ++ reasoning), answer. split.
      + rewrite <- !app_assoc. reflexivity.
      + rewrite length_app. reflexivity.
    - intros j Hj. destruct (Nat.le_gt_cases j (7 + length reasoning)) as [Hle|Hgt];
        [exact Hle|].
      replace j with ((7 + length reasoning) + (j - (7 + length reasoning)))%nat in Hj by lia.
      apply occurs_at_of_suffix in Hj.
      replace (skipn (7 + length reasoning) (start_tag ++ reasoning ++ end_tag ++ answer))
        with (end_tag ++ answer) in Hj.
      + apply end_tag_only_at_front in Hj; [lia | exact Ha].
      + rewrite app_assoc. rewrite skipn_app.
        rewrite skipn_all2 by (rewrite length_app; change (length start_tag) with 7%nat; lia).
        rewrite length_app. change (length start_tag) with 7%nat.
        rewrite Nat.sub_diag. reflexivity. }
  apply find_last_iff in Hlast. rewrite (extract_with_end_tag _ _ Hlast).
  f_equal.
  - f_equal. rewrite think_spans_unfold.
    rewrite (find_first_at_front start_tag)
      by (apply starts_with_iff; eexists; reflexivity).
    change (skipn (0 + 7) (start_tag ++ reasoning ++ end_tag ++ answer))
      with (reasoning ++ end_tag ++ answer).
    rewrite (first_end_tag_after _ _ Hr).
    rewrite firstn_app, firstn_all, Nat.sub_diag.
    change (firstn 0 (end_tag ++ answer)) with (@nil char). rewrite app_nil_r.
    rewrite skipn_app, skipn_all2 by lia. cbn [app].
    replace (length reasoning + 8 - length reasoning)%nat with 8%nat by lia.
    change (skipn 8 (end_tag ++ answer)) with answer.
    rewrite no_span_no_match; [reflexivity|].
    intros [pre [inner [post E]]]. apply Ha.
    exists (length (pre ++ start_tag ++ inner)), (pre ++ start_tag ++ inner), post.
    split; [|reflexivity]. rewrite E, <- !app_assoc. reflexivity.
  - f_equal. rewrite app_assoc, skipn_app.
    rewrite skipn_all2 by (rewrite length_app; change (length start_tag) with 7%nat; lia).
    rewrite length_app. change (length start_tag) with 7%nat.
    replace (7 + length reasoning + 8 - (7 + length reasoning))%nat with 8%nat by lia.
    reflexivity.
Qed.

Lemma extract_of_one_span_witness :
  extract_think_and_answer
    (start_tag ++ lit " wafer <b> first " ++ end_tag ++ lit " CVD is <i>chemical</i>. ")
  = (Some [strip (lit " wafer <b> first ")], strip (lit " CVD is <i>chemical</i>. ")).
Proof.
  apply (extract_of_one_span (lit " wafer <b> first ") (lit " CVD is <i>chemical</i>. "));
    apply find_first_None; vm_compute; reflexivity.
Defined.

End ParseMore.

(* ================================================================= *)
(** * More about [chunk_text] *)

Module ChunkMore.

Import Spec More Util PyStrFacts ChunkFacts.

Lemma chunk_loop_no_empty (fuel : nat) (text : str) (max_length : Z)
    (acc chunks : list str) :
  chunk_loop fuel text max_length acc = Some chunks ->
  Forall (fun chunk => chunk <> []) acc ->
  Forall (fun chunk => chunk <> []) chunks.
Proof.
  revert text acc. induction fuel as [|fuel IH]; intros text acc H Hacc.
  - destruct text; simpl in H; [|discriminate]. injection H as <-. exact Hacc.
  - destruct text as [|x text]; simpl in H; [injection H as <-; exact Hacc|].
    destruct (len (x :: text) <=? max_length).
    + injection H as <-. apply Forall_app. split; [exact Hacc|].
      constructor; [discriminate | constructor].
    + apply IH in H; [exact H|].
      destruct (strip (slice_to (x :: text) (chunk_end_of (x :: text) max_length)))
        as [|c cs] eqn:E; simpl; [exact Hacc|].
      apply Forall_app. split; [exact Hacc|]. constructor; [discriminate | constructor].
Qed.

(** X6: whatever [max_length] is, a result of [chunk_text] holds no empty
    chunk. *)
Theorem chunk_text_no_empty_chunk (text : str) (max_length : Z) (chunks : list str) :
  chunk_text text max_length = Some chunks ->
  Forall (fun chunk => chunk <> []) chunks.
Proof.
  intros H. apply (chunk_loop_no_empty _ _ _ _ _ H). constructor.
Qed.

Lemma chunk_text_no_empty_chunk_witness :
  Forall (fun chunk => chunk <> []) [lit "a"; lit "bc"; lit "d"].
Proof.
  apply (chunk_text_no_empty_chunk (lit "  a bc   d  ") 2). vm_compute. reflexivity.
Defined.

(** X7: for [max_length >= 1] no chunk is longer than [max_length + 100];
    with the default of 2900 every chunk has at most 3000 characters. *)
Theorem chunk_text_bound (text : str) (max_length : Z) (chunks : list str) :
  1 <= max_length ->
  chunk_text text max_length = Some chunks ->
  Forall (fun chunk => len chunk <= max_length + 100) chunks
  /\ (max_length = default_max_length -> Forall (fun chunk => len chunk <= 3000) chunks).
Proof.
  intros Hm H. pose proof (chunk_text_within_100 text max_length chunks Hm H) as Hb.
  split; [exact Hb|]. intros ->. exact Hb.
Qed.

Lemma chunk_text_bound_witness :
  Forall (fun chunk => len chunk <= 10 + 100) [lit "aaa bbbbb.cc"; lit "dd"]
  /\ (10 = default_max_length ->
      Forall (fun chunk => len chunk <= 3000) [lit "aaa bbbbb.cc"; lit "dd"]).
Proof.
  apply (chunk_text_bound (lit "aaa bbbbb.cc dd") 10); [lia | vm_compute; reflexivity].
Defined.

(** X8: when the text is longer than [max_length], or has no whitespace at
    its ends, no chunk has whitespace at its ends. *)
Theorem chunk_text_chunks_trimmed (text : str) (max_length : Z) (chunks : list str) :
  1 <= max_length ->
  max_length < len text \/ trimmed text ->
  chunk_text text max_length = Some chunks ->
  Forall trimmed chunks.
Proof.
  intros Hm Hcase H.
  destruct (chunk_text_rounds max_length
              (fun text chunks =>
                 max_length < len text \/ trimmed text -> Forall trimmed chunks)
              Hm) with (text := text) as [chunks' [H1 H2]].
  - intros _. constructor.
  - intros t _ Hl [Hlt | Ht]; [lia|]. constructor; [exact Ht | constructor].
  - intros t cs Hl Hcs _. apply Forall_app. split.
    + unfold round_chunk. destruct (truthy _); constructor; [|constructor].
      unfold trimmed. apply strip_idem.
    + apply Hcs. right. unfold round_rest, trimmed. apply strip_idem.
  - rewrite H in H1. injection H1 as <-. apply H2. exact Hcase.
Qed.

Lemma chunk_text_chunks_trimmed_witness :
  Forall trimmed [lit "a"; lit "bc"; lit "d"].
Proof.
  apply (chunk_text_chunks_trimmed (lit "  a bc   d  ") 2);
    [lia | left; vm_compute; reflexivity | vm_compute; reflexivity].
Defined.

Lemma no_whitespace_strip (s : str) : no_whitespace s = true -> strip s = s.
Proof.
  intros H. unfold strip.
  assert (Hl : forall t, no_whitespace t = true -> lstrip t = t).
  { intros t Ht. apply lstrip_fixed. destruct t as [|c t]; [exact I|].
    simpl in Ht. apply andb_prop in Ht as [Hc _]. apply negb_true_iff. exact Hc. }
  rewrite (Hl s H). unfold rstrip. rewrite Hl.
  - apply rev_involutive.
  - unfold no_whitespace in *. rewrite forallb_forall in *.
    intros c Hc. apply H. apply in_rev. exact Hc.
Qed.

Lemma no_whitespace_no_space (s : str) (start : Z) :
  no_whitespace s = true -> 0 <= start -> find_from s (lit " ") start = -1.
Proof.
  intros H Hs. unfold find_from.
  destruct (start <? 0) eqn:E; [lia|].
  destruct (len s <? start); [reflexivity|].
  destruct (find_first (lit " ") (skipn (Z.to_nat start) s)) as [i|] eqn:F; [|reflexivity].
  exfalso. apply find_first_Some in F. destruct F as [[pre [post [E' _]]] _].
  unfold no_whitespace in H. rewrite forallb_forall in H.
  assert (Hin : In 32%N s).
  { rewrite <- (firstn_skipn (Z.to_nat start) s), E'.
    apply in_or_app. right. apply in_or_app. right. left. reflexivity. }
  apply H in Hin. discriminate.
Qed.

Lemma slice_to_0 (text : str) : slice_to text 0 = [].
Proof.
  unfold slice_to. rewrite clamp_inside by (pose proof (len_nonneg text); lia).
  reflexivity.
Qed.

Lemma slice_from_0 (text : str) : slice_from text 0 = text.
Proof.
  unfold slice_from. rewrite clamp_inside by (pose proof (len_nonneg text); lia).
  reflexivity.
Qed.

Lemma chunk_end_of_zero (text : str) :
  text <> [] -> no_whitespace text = true -> chunk_end_of text 0 = 0.
Proof.
  intros Hne Hw. unfold chunk_end_of.
  rewrite slice_to_0.
  change (rfind [] (lit ".")) with (-1). change (rfind [] [newline]) with (-1).
  change (rfind [] (lit " ")) with (-1). cbn [Z.eqb negb andb].
  rewrite (no_whitespace_no_space text 0 Hw ltac:(lia)).
  destruct (0 <? len text); reflexivity.
Qed.

Lemma chunk_loop_step (fuel : nat) (text : str) (max_length : Z) (acc : list str) :
  text <> [] ->
  chunk_loop (S fuel) text max_length acc
  = if len text <=? max_length then Some (acc ++ [text])
    else chunk_loop fuel (strip (slice_from text (chunk_end_of text max_length)))
           max_length
           (if truthy (strip (slice_to text (chunk_end_of text max_length)))
            then acc ++ [strip (slice_to text (chunk_end_of text max_length))]
            else acc).
Proof. intros H. destruct text; [congruence | reflexivity]. Qed.

(** X9: with [max_length = 0] and a text that is not empty and holds no
    whitespace, the loop never ends: a round appends nothing and goes on
    with the same text, so no amount of fuel gives a result. *)
Theorem chunk_text_zero_never_returns (text : str) (fuel : nat) (acc : list str) :
  text <> [] -> no_whitespace text = true ->
  chunk_loop fuel text 0 acc = None.
Proof.
  intros Hne Hw. revert acc. induction fuel as [|fuel IH]; intros acc.
  - destruct text; [congruence | reflexivity].
  - rewrite chunk_loop_step by exact Hne.
    rewrite chunk_end_of_zero by assumption.
    destruct (len text <=? 0) eqn:El.
    + apply Z.leb_le in El. destruct text; [congruence|].
      unfold len in El. simpl in El. lia.
    + rewrite slice_to_0, slice_from_0. cbn [strip lstrip rstrip rev truthy].
      rewrite (no_whitespace_strip _ Hw). apply IH.
Qed.

Lemma chunk_text_zero_never_returns_witness :
  chunk_loop 1000 (lit "word") 0 [] = None.
Proof.
  apply (chunk_text_zero_never_returns (lit "word") 1000 []);
    [discriminate | reflexivity].
Defined.

Lemma rfind_char_at (w : str) (c : char) :
  0 <= rfind w [c] -> char_at w (rfind w [c]) = Some c.
Proof.
  unfold rfind, char_at. destruct (find_last [c] w) as [i|] eqn:F; simpl; [|lia].
  intros _. destruct (Z.of_nat i <? 0) eqn:E; [apply Z.ltb_lt in E; lia|]. rewrite Nat2Z.id.
  apply find_last_Some in F. destruct F as [[pre [post [-> L]]] _].
  rewrite nth_error_app2 by lia. rewrite L, Nat.sub_diag. reflexivity.
Qed.

Lemma char_at_window (text : str) (max_length i : Z) :
  0 <= i < max_length -> max_length <= len text ->
  char_at (slice_to text max_length) i = char_at text i.
Proof.
  intros Hi Hm. unfold char_at, slice_to. destruct (i <? 0); [reflexivity|].
  rewrite clamp_inside by lia. rewrite nth_error_firstn.
  destruct (Nat.ltb (Z.to_nat i) (Z.to_nat max_length)) eqn:E; [reflexivity|].
  apply Nat.ltb_ge in E. lia.
Qed.

Lemma rfind_found (w : str) (c : char) : In c w -> rfind w [c] <> -1.
Proof.
  intros Hin. unfold rfind. destruct (find_last [c] w) as [i|] eqn:F; simpl; [lia|].
  exfalso. apply find_last_None in F. apply F. apply in_split in Hin.
  destruct Hin as [pre [post ->]]. exists (length pre), pre, post. auto.
Qed.

(** X10: in a round on a text longer than [max_length >= 1], if the first
    [max_length] characters hold a space and the last of them is neither a
    period, a newline nor a space, the split point lies inside those
    characters and the chunk of the round is within [max_length]. *)
Theorem round_within_when_boundary_inside (text : str) (max_length : Z) :
  1 <= max_length -> max_length < len text ->
  In space (slice_to text max_length) ->
  (forall c, char_at text (max_length - 1) = Some c ->
             c <> period /\ c <> newline /\ c <> space) ->
  chunk_end_of text max_length < max_length
  /\ Forall (fun chunk => len chunk <= max_length) (round_chunk text max_length).
Proof.
  intros Hm Hl Hsp Hlast.
  assert (He : chunk_end_of text max_length < max_length).
  { unfold chunk_end_of.
    assert (Hw : len (slice_to text max_length) = max_length)
      by (apply len_slice_to; lia).
    assert (Hat : forall c, 0 <= rfind (slice_to text max_length) [c] ->
                    rfind (slice_to text max_length) [c] = max_length - 1 ->
                    char_at text (max_length - 1) = Some c).
    { intros c H0 E. rewrite <- (char_at_window text max_length) by lia.
      rewrite <- E. apply rfind_char_at. exact H0. }
    pose proof (rfind_bounds (slice_to text max_length) [period]) as Hp.
    pose proof (rfind_bounds (slice_to text max_length) [newline]) as Hn.
    pose proof (rfind_bounds (slice_to text max_length) [space]) as Hs.
    pose proof (rfind_found _ _ Hsp) as Hs'.
    pose proof (Hat period) as Hp1. pose proof (Hat newline) as Hn1.
    pose proof (Hat space) as Hs1.
    rewrite Hw in Hp, Hn, Hs.
    change (len [period]) with 1 in Hp. change (len [newline]) with 1 in Hn.
    change (len [space]) with 1 in Hs.
    change (lit ".") with [period]. change (lit " ") with [space].
    assert (Hp2 : rfind (slice_to text max_length) [period] <> max_length - 1).
    { intros E. destruct (Hlast period) as [H _]; [apply Hp1; lia | congruence]. }
    assert (Hn2 : rfind (slice_to text max_length) [newline] <> max_length - 1).
    { intros E. destruct (Hlast newline) as [_ [H _]]; [apply Hn1; lia | congruence]. }
    assert (Hs2 : rfind (slice_to text max_length) [space] <> max_length - 1).
    { intros E. destruct (Hlast space) as [_ [_ H]]; [apply Hs1; lia | congruence]. }
    clear Hp1 Hn1 Hs1 Hat Hlast.
    repeat match goal with
           | |- context [if ?b then _ else _] => destruct b eqn:?
           | H : context [if ?b then _ else _] |- _ => destruct b eqn:?
           end;
    repeat match goal with
           | H : (_ && _) = true |- _ => apply andb_prop in H; destruct H
           | H : negb _ = true |- _ => apply negb_true_iff in H
           | H : negb _ = false |- _ => apply negb_false_iff in H
           | H : (_ =? _) = true |- _ => apply Z.eqb_eq in H
           | H : (_ =? _) = false |- _ => apply Z.eqb_neq in H
           | H : (_ <? _) = true |- _ => apply Z.ltb_lt in H
           | H : (_ <? _) = false |- _ => apply Z.ltb_ge in H
           end; lia. }
  split; [exact He|]. apply round_chunk_within; lia.
Qed.

Lemma round_within_when_boundary_inside_witness :
  chunk_end_of (lit "hello world. this is") 10 < 10
  /\ Forall (fun chunk => len chunk <= 10) (round_chunk (lit "hello world. this is") 10).
Proof.
  apply (round_within_when_boundary_inside (lit "hello world. this is") 10).
  - lia.
  - vm_compute. reflexivity.
  - vm_compute. tauto.
  - intros c H. vm_compute in H. injection H as <-.
    repeat split; discriminate.
Defined.

Lemma woven_length (text : str) (chunks : list str) :
  woven text chunks -> (length (concat chunks) <= length text)%nat.
Proof.
  induction 1 as [w Hw | w chunk rest chunks Hw Hrest IH]; simpl; [lia|].
  rewrite !length_app. lia.
Qed.

Lemma count_le_concat (chunks : list str) :
  Forall (fun chunk => chunk <> []) chunks ->
  (length chunks <= length (concat chunks))%nat.
Proof.
  induction 1 as [|c chunks Hc Hrest IH]; simpl; [lia|].
  rewrite length_app. destruct c; [congruence | simpl; lia].
Qed.

(** X19: for [max_length >= 1] the chunks together are no longer than the
    text, and there are at most as many chunks as the text has
    characters. *)
Theorem chunk_text_size (text : str) (max_length : Z) (chunks : list str) :
  1 <= max_length ->
  chunk_text text max_length = Some chunks ->
  (length (concat chunks) <= length text)%nat
  /\ (length chunks <= length text)%nat.
Proof.
  intros Hm H. destruct (chunk_text_woven text max_length Hm) as [chunks' [H1 H2]].
  rewrite H in H1. injection H1 as <-.
  pose proof (woven_length _ _ H2) as Hl.
  pose proof (count_le_concat _ (chunk_loop_no_empty _ _ _ _ _ H (Forall_nil _))) as Hc.
  split; lia.
Qed.

Lemma chunk_text_size_witness :
  (length (concat [lit "a"; lit "bc"; lit "d"]) <= length (lit "  a bc   d  "))%nat
  /\ (length [lit "a"; lit "bc"; lit "d"] <= length (lit "  a bc   d  "))%nat.
Proof.
  apply (chunk_text_size (lit "  a bc   d  ") 2); [lia | vm_compute; reflexivity].
Defined.

End ChunkMore.

(* ================================================================= *)
(** * More about [format_slack_response] and [get_recent_conversations] *)

Module FormatMore.

Import Db Spec More Util PyStrFacts ChunkFacts ReFacts FormatFacts ParseMore.

Lemma thinking_part_blocks_within (parts : list str) (blocks : list block) :
  thinking_part_blocks parts = Some blocks ->
  Forall (block_within 3006) blocks /\ ~ In Divider blocks.
Proof.
  revert blocks. induction parts as [|part parts IH]; intros blocks;
    cbn [thinking_part_blocks].
  - intros [= <-]. split; [constructor | intros []].
  - destruct (chunk_text part default_max_length) as [chunks|] eqn:Ec; [|discriminate].
    cbn [bind]. destruct (thinking_part_blocks parts) as [bs|]; [|discriminate].
    cbn [bind]. intros [= <-]. destruct (IH bs eq_refl) as [IH1 IH2].
    pose proof (chunk_text_within_100 _ _ _ default_max_length_pos Ec) as Hb.
    split.
    + apply Forall_app. split; [|exact IH1].
      rewrite Forall_forall in *. intros b Hin. apply in_map_iff in Hin.
      destruct Hin as [chunk [<- Hin]]. apply Hb in Hin. cbv beta. cbn [block_within].
      unfold len, default_max_length in *. cbn [length]. rewrite length_app.
      change (length (lit "```")) with 3%nat. lia.
    + intros Hin. apply in_app_or in Hin. destruct Hin as [Hin | Hin]; [|exact (IH2 Hin)].
      apply in_map_iff in Hin. destruct Hin as [chunk [Hin _]]. discriminate.
Qed.

Lemma thinking_section_within (parts : option (list str)) (blocks : list block) :
  thinking_section parts = Some blocks ->
  Forall (block_within 3006) blocks
  /\ (In Divider blocks <-> exists seg rest, parts = Some (seg :: rest)).
Proof.
  destruct parts as [[|seg rest]|]; cbn [thinking_section].
  - intros [= <-]. split; [constructor|]. split; [intros [] | intros [? [? H]]; discriminate].
  - destruct (thinking_part_blocks (seg :: rest)) as [bs|] eqn:E; [|discriminate].
    cbn [bind]. intros [= <-]. destruct (thinking_part_blocks_within _ _ E) as [H1 _].
    split.
    + constructor; [vm_compute; discriminate|]. apply Forall_app. split; [exact H1|].
      constructor; [exact I | constructor].
    + split; [intros _; exists seg, rest; reflexivity|].
      intros _. right. apply in_or_app. right. left. reflexivity.
  - intros [= <-]. split; [constructor|]. split; [intros [] | intros [? [? H]]; discriminate].
Qed.

(** The shape of every result of [format_slack_response]. *)
Lemma format_shape (text : str) :
  exists thinking answer_chunks,
    thinking_section (fst (extract_think_and_answer text)) = Some thinking
    /\ chunk_text
         (Re.sub BOLD_TEXT_PATTERN (fun g => lit "*" ++ g ++ lit "*")
            (snd (extract_think_and_answer text)))
         default_max_length = Some answer_chunks
    /\ format_slack_response text
       = Some (Blocks (thinking ++ SectionMrkdwn (lit "*Answer:*")
                                :: map SectionMrkdwn answer_chunks)).
Proof.
  unfold format_slack_response.
  destruct (extract_think_and_answer text) as [parts answer]. cbn [fst snd].
  destruct (thinking_section_total parts) as [thinking Ht].
  destruct (chunk_text_total
              (Re.sub BOLD_TEXT_PATTERN (fun g => lit "*" ++ g ++ lit "*") answer)
              default_max_length default_max_length_pos) as [chunks Hc].
  exists thinking, chunks. rewrite Ht, Hc. cbn [bind]. rewrite <- app_assoc.
  split; [reflexivity | split; reflexivity].
Qed.

(** X11: [format_slack_response] always returns blocks, never plain text:
    the blocks of the thinking section, whose texts have at most 3006
    characters, the ["*Answer:*"] heading, and one section per answer chunk,
    each of at most 3000 characters. *)
Theorem format_blocks_bounded (text : str) :
  exists thinking answer_chunks,
    format_slack_response text
    = Some (Blocks (thinking ++ SectionMrkdwn (lit "*Answer:*")
                             :: map SectionMrkdwn answer_chunks))
    /\ Forall (block_within 3006) thinking
    /\ Forall (fun chunk => len chunk <= 3000) answer_chunks.
Proof.
  destruct (format_shape text) as [thinking [chunks [Ht [Hc Hf]]]].
  exists thinking, chunks. split; [exact Hf | split].
  - apply (thinking_section_within _ _ Ht).
  - apply (chunk_text_within_100 _ _ _ default_max_length_pos Hc).
Qed.

(** X12: the blocks hold a divider, that is, the thinking section is
    shown, exactly when the text holds a complete [<think>...</think>]
    span. *)
Theorem format_divider_iff_span (text : str) :
  exists blocks,
    format_slack_response text = Some (Blocks blocks)
    /\ (In Divider blocks <-> has_think_span text).
Proof.
  destruct (format_shape text) as [thinking [chunks [Ht [Hc Hf]]]].
  eexists. split; [exact Hf|].
  destruct (thinking_section_within _ _ Ht) as [_ Hd].
  rewrite <- reasoning_nonempty_iff_span, <- Hd. split.
  - intros Hin. apply in_app_or in Hin. destruct Hin as [Hin | [Hin | Hin]];
      [exact Hin | discriminate|].
    apply in_map_iff in Hin. destruct Hin as [c [Hin _]]. discriminate.
  - intros Hin. apply in_or_app. left. exact Hin.
Qed.

Lemma sorted_app_cross {A : Type} (R : A -> A -> Prop) (a b : list A) :
  StronglySorted R (a ++ b) ->
  StronglySorted R a /\ forall x y, In x a -> In y b -> R x y.
Proof.
  induction a as [|h a IH]; simpl; intros H.
  - split; [constructor | intros x y []].
  - inversion H as [|? ? Hs Hf]; subst. destruct (IH Hs) as [IH1 IH2].
    rewrite Forall_forall in Hf. split.
    + constructor; [exact IH1|]. rewrite Forall_forall. intros x Hx.
      apply Hf. apply in_or_app. left. exact Hx.
    + intros x y [<- | Hx] Hy; [apply Hf; apply in_or_app; right; exact Hy|].
      apply IH2; assumption.
Qed.

Lemma sorted_rev {A : Type} (R : A -> A -> Prop) (l : list A) :
  StronglySorted R l -> StronglySorted (fun a b => R b a) (rev l).
Proof.
  induction 1 as [|h l Hs IH Hf]; simpl; [constructor|].
  assert (Hsnoc : forall m, StronglySorted (fun a b => R b a) m ->
                    Forall (fun x => R h x) m ->
                    StronglySorted (fun a b => R b a) (m ++ [h])).
  { induction m as [|x m IHm]; simpl; intros Hm Hall.
    - constructor; constructor.
    - inversion Hm as [|? ? Hm1 Hm2]; subst. inversion Hall as [|? ? Hx Hrest]; subst.
      constructor; [apply IHm; assumption|].
      apply Forall_app. split; [exact Hm2 | constructor; [exact Hx | constructor]]. }
  apply Hsnoc; [exact IH|]. rewrite Forall_forall in *. intros x Hx.
  apply Hf. apply in_rev. exact Hx.
Qed.

Lemma in_firstn {A : Type} (n : nat) (l : list A) (x : A) :
  In x (firstn n l) -> In x l.
Proof.
  intros H. rewrite <- (firstn_skipn n l). apply in_or_app. left. exact H.
Qed.

Lemma context_lines_of_eq (rows : list Conversation) :
  flat_map
    (fun conv =>
       let '(_, answer) := extract_think_and_answer (outgoing_message conv) in
       [lit "user: " ++ [dquote] ++ incoming_message conv ++ [dquote];
        lit "assistant: " ++ [dquote] ++ answer ++ [dquote]])
    rows
  = context_lines_of rows.
Proof.
  unfold context_lines_of. apply flat_map_ext. intros c. apply context_lines.
Qed.

(** X13: when the query goes through and [limit >= 0], the context is the
    user line and the assistant line of [min limit n] rows, joined by
    newlines, where [n] rows match the channel and the model: only matching
    rows of the table appear, oldest first, and every matching row left out
    is no newer than any row that appears. *)
Theorem context_holds_newest_rows (db : Session) (channel model : str) (limit : Z) :
  0 <= limit ->
  exists rows,
    get_recent_conversations db Succeeds channel model limit
    = join [newline] (context_lines_of rows)
    /\ length rows
       = Nat.min (Z.to_nat limit) (length (filter (matches channel model) (table db)))
    /\ (forall c, In c rows -> In c (table db) /\ matches channel model c = true)
    /\ StronglySorted (fun a b => created_at a <= created_at b) rows
    /\ (forall c d, In c rows -> In d (table db) -> matches channel model d = true ->
                    ~ In d rows -> created_at d <= created_at c).
Proof.
  intros Hl. unfold get_recent_conversations, recent. fold (matches channel model).
  destruct (limit <? 0) eqn:E; [apply Z.ltb_lt in E; lia|].
  set (found := filter (matches channel model) (table db)).
  pose proof (order_by_created_desc_perm found) as Hperm.
  pose proof (order_by_created_desc_sorted found) as Hsorted.
  set (sorted := order_by_created_desc found) in *.
  set (n := Z.to_nat limit).
  exists (rev (firstn n sorted)). split; [|split; [|split; [|split]]].
  - rewrite context_lines_of_eq. reflexivity.
  - rewrite length_rev, length_firstn, (Permutation_length Hperm). reflexivity.
  - intros c Hc. apply in_rev in Hc. apply in_firstn in Hc.
    apply (Permutation_in c Hperm) in Hc. unfold found in Hc.
    apply filter_In in Hc. exact Hc.
  - rewrite <- (firstn_skipn n sorted) in Hsorted.
    apply sorted_app_cross in Hsorted. destruct Hsorted as [Hs _].
    apply (sorted_rev _ _ Hs).
  - intros c d Hc Hd Hm Hnot. apply in_rev in Hc.
    assert (Hds : In d sorted).
    { apply (Permutation_in d (Permutation_sym Hperm)). unfold found.
      apply filter_In. split; assumption. }
    rewrite <- (firstn_skipn n sorted) in Hds, Hsorted.
    apply sorted_app_cross in Hsorted. destruct Hsorted as [_ Hcross].
    apply in_app_or in Hds. destruct Hds as [Hd1 | Hd2].
    + exfalso. apply Hnot. apply in_rev. rewrite rev_involutive. exact Hd1.
    + apply (Hcross c d Hc Hd2).
Qed.

Lemma context_holds_newest_rows_witness :
  exists rows,
    get_recent_conversations three_turns Succeeds (lit "C1") (lit "m") 2
    = join [newline] (context_lines_of rows)
    /\ length rows
       = Nat.min (Z.to_nat 2)
           (length (filter (matches (lit "C1") (lit "m")) (table three_turns)))
    /\ (forall c, In c rows ->
                  In c (table three_turns) /\ matches (lit "C1") (lit "m") c = true)
    /\ StronglySorted (fun a b => created_at a <= created_at b) rows
    /\ (forall c d, In c rows -> In d (table three_turns) ->
                    matches (lit "C1") (lit "m") d = true ->
                    ~ In d rows -> created_at d <= created_at c).
Proof.
  apply (context_holds_newest_rows three_turns (lit "C1") (lit "m") 2). lia.
Defined.

End FormatMore.

(* ================================================================= *)
(** * More about the handlers *)

Module BotMore.

Import Db Spec More Util Bot PyStrFacts FormatFacts BotFacts FormatMore.

Lemma str_eqb_eq (a b : str) : str_eqb a b = true <-> a = b.
Proof.
  revert b. induction a as [|x a IH]; intros [|y b]; simpl;
    try (split; [discriminate | discriminate]); try (split; reflexivity).
  rewrite andb_true_iff, char_eqb_eq, IH. split.
  - intros [-> ->]. reflexivity.
  - intros [= -> ->]. auto.
Qed.

Lemma not_stored_not_in (ts : str) (rows : list Conversation) :
  existsb (has_message_id ts) rows = false -> ~ In ts (map message_id rows).
Proof.
  intros H Hin. apply in_map_iff in Hin. destruct Hin as [c [E Hc]].
  assert (Ht : existsb (has_message_id ts) rows = true).
  { apply existsb_exists. exists c. split; [exact Hc|].
    unfold has_message_id. apply str_eqb_eq. exact E. }
  congruence.
Qed.

Lemma with_outgoing_columns (text : str) (now : Z) (c : Conversation) :
  fixed_columns (with_outgoing text now c) = fixed_columns c.
Proof. unfold with_outgoing. destruct (str_eqb (outgoing_message c) text); reflexivity. Qed.

Lemma set_first_outgoing_columns (ts text : str) (now : Z) (rows : list Conversation) :
  map fixed_columns (set_first_outgoing ts text now rows) = map fixed_columns rows.
Proof.
  induction rows as [|c rows IH]; simpl; [reflexivity|].
  destruct (has_message_id ts c); simpl;
    [rewrite with_outgoing_columns | rewrite IH]; reflexivity.
Qed.

Lemma set_first_outgoing_ids (ts text : str) (now : Z) (rows : list Conversation) :
  map message_id (set_first_outgoing ts text now rows) = map message_id rows.
Proof.
  induction rows as [|c rows IH]; simpl; [reflexivity|].
  destruct (has_message_id ts c); simpl;
    [rewrite with_outgoing_message_id | rewrite IH]; reflexivity.
Qed.

(** What a commit does to the table: nothing, or one row appended whose
    [message_id] was not taken. *)
Lemma add_commit_table (db : Session) (o : outcome) (now : Z)
    (user channel ts incoming outgoing model : str) :
  let db' := fst (add_commit db o now user channel ts incoming outgoing model) in
  table db' = table db
  \/ (existsb (has_message_id ts) (table db) = false
      /\ exists row, table db' = table db ++ [row] /\ message_id row = ts).
Proof.
  unfold add_commit. destruct o; [|left; reflexivity].
  destruct (existsb (has_message_id ts) (table db)) eqn:E; [left; reflexivity|].
  right. split; [reflexivity|]. eexists. split; reflexivity.
Qed.

Lemma store_response_table (db : Session) (o : outcome) (now : Z) (ts text : str) :
  map fixed_columns (table (store_response db o now ts text))
  = map fixed_columns (table db)
  /\ map message_id (table (store_response db o now ts text))
     = map message_id (table db).
Proof.
  unfold store_response. destruct o; [|split; reflexivity].
  destruct (find (has_message_id ts) (table db)); [|split; reflexivity].
  cbn [table]. split; [apply set_first_outgoing_columns | apply set_first_outgoing_ids].
Qed.

(** The session [handle_mention] ends with: the one after the insert, or
    that one with the response stored. *)
Lemma handle_mention_session (MODEL_NAME : str) (db db' : Session) (env : Env)
    (event : Event) (replies : list payload) :
  handle_mention MODEL_NAME db env event = Some (db', replies) ->
  db' = db
  \/ exists db1,
       (db1 = fst (add_commit db (insert_outcome env) (insert_time env)
                     (ev_user event) (ev_channel event) (ev_ts event)
                     (clean_message (ev_text event)) [] MODEL_NAME))
       /\ (db' = db1
           \/ exists text, db' = store_response db1 (update_outcome env)
                                   (update_time env) (ev_ts event) text).
Proof.
  unfold handle_mention. destruct (truthy (ev_text event));
    [|intros [= <- _]; left; reflexivity].
  destruct (add_commit db (insert_outcome env) (insert_time env) (ev_user event)
              (ev_channel event) (ev_ts event) (clean_message (ev_text event)) []
              MODEL_NAME) as [db1 ok] eqn:Ea.
  cbn [fst]. intros H. right. exists db1. split; [reflexivity|].
  destruct (post env MODEL_NAME _) as [response_text| |].
  - destruct (format_slack_response response_text); [|discriminate].
    cbn [bind] in H. injection H as <- _. right. exists response_text. reflexivity.
  - injection H as <- _. left. reflexivity.
  - injection H as <- _. left. reflexivity.
Qed.

Lemma handle_message_session (db : Session) (env : Env) (event : Event) :
  fst (handle_message db env event) = db
  \/ fst (handle_message db env event)
     = fst (add_commit db (insert_outcome env) (insert_time env)
              (ev_user event) (ev_channel event) (ev_ts event)
              (clean_message (ev_text event)) (clean_message (ev_text event))
              (lit "echo")).
Proof.
  unfold handle_message. destruct (truthy (ev_text event)); [|left; reflexivity].
  destruct (add_commit db (insert_outcome env) (insert_time env) (ev_user event)
              (ev_channel event) (ev_ts event) (clean_message (ev_text event))
              (clean_message (ev_text event)) (lit "echo")). right. reflexivity.
Qed.

Lemma add_commit_unique (db : Session) (o : outcome) (now : Z)
    (user channel ts incoming outgoing model : str) :
  unique_message_ids db ->
  unique_message_ids (fst (add_commit db o now user channel ts incoming outgoing model)).
Proof.
  intros H. unfold unique_message_ids in *.
  destruct (add_commit_table db o now user channel ts incoming outgoing model)
    as [-> | [Hfresh [row [-> Hrow]]]]; [exact H|].
  rewrite map_app. cbn [map]. rewrite Hrow.
  apply NoDup_app.
  - exact H.
  - constructor; [intros [] | constructor].
  - intros x Hx [<- | []]. exact (not_stored_not_in _ _ Hfresh Hx).
Qed.

(** X14: both handlers keep the [message_id]s of the table distinct. *)
Theorem handlers_keep_message_ids_unique (MODEL_NAME : str) (db : Session) (env : Env)
    (event : Event) :
  unique_message_ids db ->
  unique_message_ids (fst (handle_message db env event))
  /\ forall db' replies,
       handle_mention MODEL_NAME db env event = Some (db', replies) ->
       unique_message_ids db'.
Proof.
  intros H. split.
  - destruct (handle_message_session db env event) as [-> | ->];
      [exact H | apply add_commit_unique; exact H].
  - intros db' replies Hm. apply handle_mention_session in Hm.
    destruct Hm as [-> | [db1 [-> [-> | [text ->]]]]]; [exact H | |].
    + apply add_commit_unique. exact H.
    + unfold unique_message_ids.
      rewrite (proj2 (store_response_table _ _ _ _ _)).
      apply add_commit_unique. exact H.
Qed.

Lemma handlers_keep_message_ids_unique_witness :
  unique_message_ids (fst (handle_message three_turns healthy_env cvd_event))
  /\ forall db' replies,
       handle_mention (lit "m") three_turns healthy_env cvd_event = Some (db', replies) ->
       unique_message_ids db'.
Proof.
  apply (handlers_keep_message_ids_unique (lit "m") three_turns healthy_env cvd_event).
  unfold unique_message_ids. vm_compute.
  repeat (constructor; [simpl; intuition discriminate|]). constructor.
Defined.

Lemma add_commit_columns (db : Session) (o : outcome) (now : Z)
    (user channel ts incoming outgoing model : str) :
  exists extra,
    map fixed_columns
      (table (fst (add_commit db o now user channel ts incoming outgoing model)))
    = map fixed_columns (table db) ++ extra
    /\ (length extra <= 1)%nat.
Proof.
  destruct (add_commit_table db o now user channel ts incoming outgoing model)
    as [-> | [_ [row [-> _]]]].
  - exists []. rewrite app_nil_r. split; [reflexivity | simpl; lia].
  - exists [fixed_columns row]. rewrite map_app. split; [reflexivity | simpl; lia].
Qed.

(** X15: the handlers never delete or reorder rows and never change the
    columns [id], [user_id], [channel_id], [message_id], [incoming_message],
    [model_name] and [created_at] of a stored row; a run adds at most one
    row, at the end. *)
Theorem handlers_append_only (MODEL_NAME : str) (db : Session) (env : Env)
    (event : Event) :
  (exists extra,
      map fixed_columns (table (fst (handle_message db env event)))
      = map fixed_columns (table db) ++ extra
      /\ (length extra <= 1)%nat)
  /\ forall db' replies,
       handle_mention MODEL_NAME db env event = Some (db', replies) ->
       exists extra,
         map fixed_columns (table db') = map fixed_columns (table db) ++ extra
         /\ (length extra <= 1)%nat.
Proof.
  assert (Hsame : exists extra,
             map fixed_columns (table db) = map fixed_columns (table db) ++ extra
             /\ (length extra <= 1)%nat).
  { exists []. rewrite app_nil_r. split; [reflexivity | simpl; lia]. }
  split.
  - destruct (handle_message_session db env event) as [-> | ->];
      [exact Hsame | apply add_commit_columns].
  - intros db' replies Hm. apply handle_mention_session in Hm.
    destruct Hm as [-> | [db1 [-> [-> | [text ->]]]]]; [exact Hsame | |].
    + apply add_commit_columns.
    + rewrite (proj1 (store_response_table _ _ _ _ _)). apply add_commit_columns.
Qed.

Lemma newest_goes_first (c : Conversation) (acc rows : list Conversation) :
  Forall (fun d => created_at d < created_at c) rows ->
  fold_right insert_desc (c :: acc) rows = c :: fold_right insert_desc acc rows.
Proof.
  induction 1 as [|d rows Hd Hrows IH]; simpl; [reflexivity|].
  rewrite IH. simpl. destruct (created_at c <=? created_at d) eqn:E; [|reflexivity].
  apply Z.leb_le in E. lia.
Qed.

Lemma order_by_newest_last (c : Conversation) (rows : list Conversation) :
  Forall (fun d => created_at d < created_at c) rows ->
  order_by_created_desc (rows ++ [c]) = c :: order_by_created_desc rows.
Proof.
  intros H. unfold order_by_created_desc. rewrite fold_right_app. simpl.
  apply newest_goes_first. exact H.
Qed.

Lemma context_lines_of_app (a b : list Conversation) :
  context_lines_of (a ++ b) = context_lines_of a ++ context_lines_of b.
Proof. unfold context_lines_of. apply flat_map_app. Qed.

(** X16: when the insert commits, the query goes through and the row of
    the event is newer than the stored rows of its channel and model, the
    context placed in the prompt ends with the question itself: the user
    line of the cleaned text and an assistant line with an empty answer. *)
Theorem prompt_context_ends_with_question (MODEL_NAME : str) (db : Session) (env : Env)
    (event : Event) :
  insert_outcome env = Succeeds ->
  select_outcome env = Succeeds ->
  existsb (has_message_id (ev_ts event)) (table db) = false ->
  (forall c, In c (table db) -> matches (ev_channel event) MODEL_NAME c = true ->
             created_at c < insert_time env) ->
  exists older,
    mention_prompt MODEL_NAME db env event
    = build_prompt
        (join [newline]
           (older
            ++ [lit "user: " ++ [dquote] ++ clean_message (ev_text event) ++ [dquote];
                lit "assistant: " ++ [dquote; dquote]]))
        (clean_message (ev_text event)).
Proof.
  intros Hi Hq Hfresh Hnew. unfold mention_prompt. rewrite Hi, Hq.
  unfold add_commit. rewrite Hfresh. cbn [fst].
  unfold get_recent_conversations, recent. cbn [table].
  change (default_limit <? 0) with false. cbv iota.
  change (Z.to_nat default_limit) with 5%nat.
  fold (matches (ev_channel event) MODEL_NAME).
  rewrite filter_app. cbn [filter]. unfold matches at 2.
  cbn [channel_id model_name]. rewrite !str_eqb_refl. cbn [andb].
  rewrite order_by_newest_last.
  - cbn [firstn rev]. rewrite context_lines_of_eq, context_lines_of_app.
    eexists. reflexivity.
  - rewrite Forall_forall. intros d Hd. apply filter_In in Hd.
    destruct Hd as [Hd Hm]. cbn [created_at]. apply Hnew; assumption.
Qed.

Lemma prompt_context_ends_with_question_witness :
  exists older,
    mention_prompt (lit "m") three_turns later_env cvd_event
    = build_prompt
        (join [newline]
           (older
            ++ [lit "user: " ++ [dquote] ++ clean_message (ev_text cvd_event) ++ [dquote];
                lit "assistant: " ++ [dquote; dquote]]))
        (clean_message (ev_text cvd_event)).
Proof.
  apply (prompt_context_ends_with_question (lit "m") three_turns later_env cvd_event);
    try reflexivity.
  intros c Hc _. vm_compute in Hc.
  repeat (destruct Hc as [<- | Hc]; [reflexivity|]). destruct Hc.
Defined.

Lemma stored_after_append (ts : str) (rows : list Conversation) (c : Conversation) :
  message_id c = ts -> existsb (has_message_id ts) (rows ++ [c]) = true.
Proof.
  intros E. rewrite existsb_app. apply orb_true_iff. right. cbn [existsb].
  apply orb_true_iff. left. unfold has_message_id. rewrite E. apply str_eqb_refl.
Qed.

(** X17: when an event with text and a new [ts] goes through
    [handle_message] and then through [handle_mention], with a database
    that works, the second insert is turned down for its [message_id] (and
    still spends a primary key), and the response of the model goes into
    the row of the echo flow: the table gains one row, with [model_name]
    ["echo"] and the raw response as [outgoing_message].  An update is sent,
    and [updated_at] set, unless the response equals the cleaned text that
    the echo flow stored. *)
Theorem both_handlers_share_one_row (MODEL_NAME : str) (db : Session) (env1 env2 : Env)
    (event : Event) (response_text : str) :
  ev_text event <> [] ->
  existsb (has_message_id (ev_ts event)) (table db) = false ->
  insert_outcome env1 = Succeeds ->
  insert_outcome env2 = Succeeds ->
  update_outcome env2 = Succeeds ->
  post env2 MODEL_NAME
    (mention_prompt MODEL_NAME (fst (handle_message db env1 event)) env2 event)
  = Response response_text ->
  exists formatted,
    both_handlers MODEL_NAME db env1 env2 event
    = Some ({| table :=
                 table db ++
                 [{| id := next_id db; user_id := ev_user event;
                     channel_id := ev_channel event; message_id := ev_ts event;
                     incoming_message := clean_message (ev_text event);
                     outgoing_message := response_text; model_name := lit "echo";
                     created_at := insert_time env1;
                     updated_at :=
                       if str_eqb (clean_message (ev_text event)) response_text
                       then None else Some (update_time env2) |}];
               next_id := next_id db + 2;
               journal :=
                 journal db ++
                 Inserted (ev_ts event)
                 :: (if str_eqb (clean_message (ev_text event)) response_text
                     then [] else [Updated (ev_ts event)]) |},
            [formatted]).
Proof.
  intros Ht Hfresh Hi Hi2 Hu Hp.
  destruct (format_slack_response_total response_text) as [formatted Hf].
  exists formatted. unfold both_handlers.
  set (row := {| id := next_id db; user_id := ev_user event;
                 channel_id := ev_channel event; message_id := ev_ts event;
                 incoming_message := clean_message (ev_text event);
                 outgoing_message := clean_message (ev_text event);
                 model_name := lit "echo";
                 created_at := insert_time env1; updated_at := None |}).
  set (db1 := {| table := table db ++ [row]; next_id := next_id db + 1;
                 journal := journal db ++ [Inserted (ev_ts event)] |}).
  assert (H1 : fst (handle_message db env1 event) = db1).
  { unfold handle_message. rewrite (truthy_true _ Ht), Hi. unfold add_commit.
    rewrite Hfresh. reflexivity. }
  assert (Hstored : existsb (has_message_id (ev_ts event)) (table db1) = true)
    by (apply stored_after_append; reflexivity).
  assert (H2 : forall now user channel incoming outgoing model,
             add_commit db1 Succeeds now user channel (ev_ts event) incoming outgoing model
             = ({| table := table db1; next_id := next_id db1 + 1;
                   journal := journal db1 |}, false)).
  { intros. unfold add_commit. rewrite Hstored. reflexivity. }
  rewrite H1 in *. unfold mention_prompt in Hp. rewrite Hi2, H2 in Hp. cbn [fst] in Hp.
  unfold get_recent_conversations, recent in Hp. cbn [table] in Hp.
  unfold handle_mention. rewrite (truthy_true _ Ht), Hi2, H2.
  unfold get_recent_conversations, recent. cbn [table].
  rewrite Hp, Hf. cbn [bind].
  unfold store_response. rewrite Hu. subst db1. cbn [table journal next_id].
  rewrite find_last_row;
    [| exact Hfresh | unfold has_message_id; apply str_eqb_refl].
  rewrite set_first_outgoing_last;
    [| exact Hfresh | unfold has_message_id; apply str_eqb_refl].
  unfold with_outgoing. subst row. cbn [outgoing_message].
  destruct (str_eqb (clean_message (ev_text event)) response_text) eqn:E.
  - apply str_eqb_eq in E. rewrite <- E.
    replace (next_id db + 1 + 1) with (next_id db + 2) by lia. reflexivity.
  - replace (next_id db + 1 + 1) with (next_id db + 2) by lia.
    rewrite <- app_assoc. reflexivity.
Qed.

Lemma both_handlers_share_one_row_witness :
  exists formatted,
    both_handlers (lit "m") empty_session healthy_env later_env cvd_event
    = Some ({| table :=
                 table empty_session ++
                 [{| id := next_id empty_session; user_id := ev_user cvd_event;
                     channel_id := ev_channel cvd_event; message_id := ev_ts cvd_event;
                     incoming_message := clean_message (ev_text cvd_event);
                     outgoing_message := cvd_response; model_name := lit "echo";
                     created_at := insert_time healthy_env;
                     updated_at :=
                       if str_eqb (clean_message (ev_text cvd_event)) cvd_response
                       then None else Some (update_time later_env) |}];
               next_id := next_id empty_session + 2;
               journal :=
                 journal empty_session ++
                 Inserted (ev_ts cvd_event)
                 :: (if str_eqb (clean_message (ev_text cvd_event)) cvd_response
                     then [] else [Updated (ev_ts cvd_event)]) |},
            [formatted]).
Proof.
  apply (both_handlers_share_one_row (lit "m") empty_session healthy_env later_env
           cvd_event cvd_response);
    try reflexivity.
  discriminate.
Defined.

(** X18: when the model call times out or fails, for an event with text
    and a new [ts] whose insert commits, the row of the event stays as
    inserted, with an empty outgoing message, no update is journaled, and
    the reply is a plain text. *)
Theorem failed_call_leaves_row_unanswered (MODEL_NAME : str) (db : Session) (env : Env)
    (event : Event) :
  ev_text event <> [] ->
  existsb (has_message_id (ev_ts event)) (table db) = false ->
  insert_outcome env = Succeeds ->
  post env MODEL_NAME (mention_prompt MODEL_NAME db env event) = Timeout
  \/ post env MODEL_NAME (mention_prompt MODEL_NAME db env event) = RequestException ->
  exists apology,
    handle_mention MODEL_NAME db env event
    = Some ({| table :=
                 table db ++
                 [{| id := next_id db; user_id := ev_user event;
                     channel_id := ev_channel event; message_id := ev_ts event;
                     incoming_message := clean_message (ev_text event);
                     outgoing_message := []; model_name := MODEL_NAME;
                     created_at := insert_time env; updated_at := None |}];
               next_id := next_id db + 1;
               journal := journal db ++ [Inserted (ev_ts event)] |},
            [PlainText apology]).
Proof.
  intros Ht Hfresh Hi Hp. unfold mention_prompt in Hp. unfold handle_mention.
  rewrite (truthy_true _ Ht). rewrite Hi in *. unfold add_commit in *.
  rewrite Hfresh in *. cbn [fst] in Hp.
  destruct Hp as [Hp | Hp]; rewrite Hp; eexists; reflexivity.
Qed.

Lemma failed_call_leaves_row_unanswered_witness :
  exists apology,
    handle_mention (lit "m") empty_session timeout_env cvd_event
    = Some ({| table :=
                 table empty_session ++
                 [{| id := next_id empty_session; user_id := ev_user cvd_event;
                     channel_id := ev_channel cvd_event; message_id := ev_ts cvd_event;
                     incoming_message := clean_message (ev_text cvd_event);
                     outgoing_message := []; model_name := lit "m";
                     created_at := insert_time timeout_env; updated_at := None |}];
               next_id := next_id empty_session + 1;
               journal := journal empty_session ++ [Inserted (ev_ts cvd_event)] |},
            [PlainText apology]).
Proof.
  apply (failed_call_leaves_row_unanswered (lit "m") empty_session timeout_env cvd_event);
    try reflexivity.
  - discriminate.
  - left. reflexivity.
Defined.

End BotMore.
